(** * websim-socket: the synchronisation protocol, its relay and its replica

    A shallow embedding of
    - [src/shared/deep-merge.ts]   (the merge engine),
    - [src/shared/protocol.ts]     (the message shapes and the client, [WebsimSocket]),
    - the PartyKit server          ([WebsimServer]),
    together with the properties the design document states about them.

    Conventions of the embedding.
    - A JSON document is a [value]; a JavaScript object used as a record or a
      dictionary is the finite map of its own properties.  This is what the
      code sees of it at every property name but [__proto__]: a name that
      is not an own property reads as [undefined] or as a function of
      [Object.prototype], neither of which the code takes for an object, and
      assigning to it creates the own property.  At [__proto__] a read
      returns the prototype and an assignment replaces it; module
      [JsObject] models objects with their prototype chain and [deepMerge]
      on them.  The statements that speak of entries created, listed or
      removed in the dictionaries keyed by client ids ([presence], the
      [peers] of a snapshot and of the client), and those about [deepMerge]
      on the store, say where they leave that name out.  The server's
      [peers] is a [Map], which has no such exception.
    - A string is a sequence of code units below 256, so that
      [String.substring 0 4] is [slice(0, 4)]; connection ids are such
      strings.
    - Numbers are opaque to the protocol (they are only stored, compared with
      zero for truthiness, and forwarded); they are represented by integers.
    - A handler is a function from the state before to the state after and the
      list of frames it sends, in program order.
    - Frames are modelled after [JSON.parse] and before [JSON.stringify]; a
      frame that fails to parse is [None], and a frame that parses has the
      shape its [type] declares in [protocol.ts]. *)

From stdpp Require Import gmap strings list fin_maps pretty.
From Stdlib Require Import ZArith Lia Ascii.

Set Warnings "-register-all".
Open Scope string_scope.

(** ** JSON values *)

Module Json.

Inductive value :=
  | VNull
  | VBool (b : bool)
  | VNum (n : Z)
  | VStr (s : string)
  | VArr (elems : list value)
  | VObj (props : gmap string value).

(** An object as the code sees it: [Record<string, any>]. *)
Abbreviation object := (gmap string value).

(** JavaScript truthiness of a JSON value (used by [echo ? ... : ...]). *)
Definition truthy (v : value) : bool :=
  match v with
  | VNull => false
  | VBool b => b
  | VNum n => negb (n =? 0)%Z
  | VStr s => negb (String.eqb s "")
  | VArr _ => true
  | VObj _ => true
  end.

(** The one property name that [Object.prototype] answers with an accessor:
    reading it gives the prototype of the object and assigning to it
    replaces the prototype, unless the object has an own property of that
    name. *)
Definition protoKey : string := "__proto__".

(** Number of constructors of a value; the measure behind induction on
    documents. *)
Fixpoint vsize (v : value) : nat :=
  match v with
  | VArr elems => S (foldr (fun e n => vsize e + n) 0 elems)
  | VObj props => S (map_fold (fun _ e n => vsize e + n) 0 props)
  | _ => 1
  end.

End Json.
Import Json.

(** ** The merge engine: [deepMerge] of [src/shared/deep-merge.ts] *)

Module MergeEngine.

(** [deepMerge] on own properties: [result[key]] is the own property of
    [result], and [result[key] = v] creates or overwrites it.  That is the
    code at every key but [__proto__] ([JsObject.deepMerge] has both, and
    [deepMerge_without_proto_keys] relates the two).

    One iteration of the [for (const key of Object.keys(source))] loop.
    [rec] stands for the recursive call [deepMerge(result[key], source[key])];
    [sv] is [source[key]] and [result] the accumulator. *)
Definition mergeStep (rec : object -> value -> object)
    (key : string) (sv : value) (result : object) : object :=
  match sv with
  | VNull => delete key result
  | VObj _ =>
      match result !! key with
      | Some (VObj tprops) => <[key := VObj (rec tprops sv)]> result
      | _ => <[key := sv]> result
      end
  | _ => <[key := sv]> result
  end.

(** [deepMergeV target source] is [deepMerge(target, source)] where [source]
    is still wrapped as a value; the recursion is structural in it.  The
    accumulator starts as the copy [{ ...target }]. *)
Fixpoint deepMergeV (target : object) (source : value) {struct source} : object :=
  match source with
  | VObj props =>
      map_fold (fun key sv result =>
        match sv with
        | VNull => delete key result
        | VObj _ =>
            match result !! key with
            | Some (VObj tprops) => <[key := VObj (deepMergeV tprops sv)]> result
            | _ => <[key := sv]> result
            end
        | _ => <[key := sv]> result
        end) target props
  | _ => target
  end.

Definition deepMerge (target source : object) : object :=
  deepMergeV target (VObj source).

(** The loop run over the entries of [source] in a given order, as
    [Object.keys] lists them. *)
Definition deepMergeIn (order : list (string * value)) (target : object)
    : object :=
  foldl (fun result kv => mergeStep deepMergeV (fst kv) (snd kv) result)
        target order.

(** The merge of the design document (section 4.1), written key by key:
    what the result holds at one key, given what [target] and [source] hold
    there.  [recur] merges two mappings. *)
Definition mergeAtKey (recur : object -> value -> object)
    (sv tv : option value) : option value :=
  match sv with
  | None => tv
  | Some VNull => None
  | Some (VObj _ as s) =>
      match tv with
      | Some (VObj tprops) => Some (VObj (recur tprops s))
      | _ => Some s
      end
  | Some s => Some s
  end.

Fixpoint mergeRefV (target : object) (source : value) {struct source} : object :=
  match source with
  | VObj props =>
      merge (fun sv tv =>
        match sv with
        | None => tv
        | Some VNull => None
        | Some (VObj _ as s) =>
            match tv with
            | Some (VObj tprops) => Some (VObj (mergeRefV tprops s))
            | _ => Some s
            end
        | Some s => Some s
        end) props target
  | _ => target
  end.

Definition mergeRef (target source : object) : object :=
  mergeRefV target (VObj source).

(** No [null] at any key of any nested mapping.  Arrays are never looked
    into by the merge, so what they hold does not count. *)
Fixpoint nullFree (v : value) : bool :=
  match v with
  | VNull => false
  | VObj props => map_fold (fun _ e b => nullFree e && b) true props
  | _ => true
  end.

(** No key [__proto__] in any nested mapping. *)
Fixpoint protoFree (v : value) : bool :=
  match v with
  | VObj props =>
      bool_decide (props !! protoKey = None)
      && map_fold (fun _ e b => protoFree e && b) true props
  | _ => true
  end.

End MergeEngine.
Import MergeEngine.

(** ** Property access on plain objects, and [deepMerge] with it

    [result[key]] and [result[key] = v] of [deep-merge.ts] go through the
    prototype of [result]: a read of a name that is not an own property is
    answered by the prototype chain, and an assignment to [__proto__] on an
    object without such an own property runs the setter of
    [Object.prototype].  Here an object is its own properties together with
    the objects of its prototype chain (nearest first, [Object.prototype]
    and [Array.prototype] left out: none of their properties holds an
    object, and all of them are writable). *)

Module JsObject.

(** A document as [JSON.parse] builds it: the entries of an object are its
    own properties, in the order [Object.keys] lists them. *)
Inductive jvalue :=
  | JNull
  | JBool (b : bool)
  | JNum (n : Z)
  | JStr (s : string)
  | JArr (elems : list jvalue)
  | JObj (entries : list (string * jvalue)).

(** The document without the order of its keys. *)
Fixpoint forget (j : jvalue) : value :=
  match j with
  | JNull => VNull
  | JBool b => VBool b
  | JNum n => VNum n
  | JStr s => VStr s
  | JArr elems => VArr (forget <$> elems)
  | JObj entries =>
      VObj (list_to_map ((fun kv => (fst kv, forget (snd kv))) <$> entries))
  end.

Definition document (entries : list (string * jvalue)) : object :=
  list_to_map ((fun kv => (fst kv, forget (snd kv))) <$> entries).

(** [Object.keys] lists a key once: the invariant of [JObj]. *)
Fixpoint distinctKeys (j : jvalue) : bool :=
  match j with
  | JObj entries =>
      bool_decide (NoDup (fst <$> entries))
      && forallb (fun kv => distinctKeys (snd kv)) entries
  | _ => true
  end.

(** No key [__proto__] in any nested mapping. *)
Fixpoint protoFree (j : jvalue) : bool :=
  match j with
  | JObj entries =>
      forallb (fun kv => negb (String.eqb (fst kv) protoKey)
                         && protoFree (snd kv)) entries
  | _ => true
  end.

(** The own properties of an object of the prototype chain; an array has
    its indices and [length]. *)
Definition arrayProps (elems : list value) : object :=
  <["length" := VNum (Z.of_nat (length elems))]>
    (list_to_map (imap (fun i e => (pretty i, e)) elems)).

Definition ownProps (v : value) : object :=
  match v with
  | VObj props => props
  | VArr elems => arrayProps elems
  | _ => ∅
  end.

(** The first object of the chain that has [key] answers. *)
Fixpoint inherited (chain : list value) (key : string) : option value :=
  match chain with
  | [] => None
  | link :: rest =>
      match ownProps link !! key with
      | Some v => Some v
      | None => inherited rest key
      end
  end.

(** What the getter of [__proto__] returns: the nearest object of the
    chain, and [Object.prototype] itself, which has no enumerable property,
    for an object whose prototype was never replaced. *)
Definition protoOf (chain : list value) : value :=
  match chain with
  | [] => VObj ∅
  | link :: _ => link
  end.

(** [o[key]] when it is an object, an array or a primitive of a document;
    [None] stands for [undefined] and for the functions of
    [Object.prototype], which [typeof] does not call ["object"]. *)
Definition get (own : object) (chain : list value) (key : string)
    : option value :=
  match own !! key with
  | Some v => Some v
  | None =>
      match inherited chain key with
      | Some v => Some v
      | None => if decide (key = protoKey) then Some (protoOf chain) else None
      end
  end.

(** [o[key] = v], where [vchain] is the prototype chain of [v].  The setter
    of [__proto__] installs an object or an array as prototype and ignores
    any other value; every other assignment creates or overwrites an own
    property. *)
Definition set (own : object) (chain : list value) (key : string)
    (v : value) (vchain : list value) : object * list value :=
  if decide (key = protoKey /\ own !! key = None /\ inherited chain key = None)
  then match v with
       | VObj _ | VArr _ => (own, v :: vchain)
       | _ => (own, chain)
       end
  else (<[key := v]> own, chain).

(** [delete o[key]] removes an own property and nothing else. *)
Definition remove (own : object) (chain : list value) (key : string)
    : object * list value :=
  (delete key own, chain).

(** [deepMerge(target, source)]: the own properties of the result and its
    prototype chain.  [{ ...target }] copies the own properties of [target]
    into an object with the original prototype, whatever the prototype of
    [target] is; the values of a parsed document have the original
    prototype. *)
Fixpoint deepMerge (target : object) (source : jvalue) {struct source}
    : object * list value :=
  match source with
  | JObj entries =>
      fold_left (fun result kv =>
        match snd kv with
        | JNull => remove (fst result) (snd result) (fst kv)
        | JObj _ =>
            match get (fst result) (snd result) (fst kv) with
            | Some (VObj tprops) =>
                let merged := deepMerge tprops (snd kv) in
                set (fst result) (snd result) (fst kv)
                    (VObj (fst merged)) (snd merged)
            | _ => set (fst result) (snd result) (fst kv) (forget (snd kv)) []
            end
        | _ => set (fst result) (snd result) (fst kv) (forget (snd kv)) []
        end) entries (target, [])
  | _ => (target, [])
  end.

(** [JSON.parse('{"__proto__":{"a":1},"b":2}')] and
    [JSON.parse('{"__proto__":{"a":{"x":1}},"a":{"y":2}}')]. *)
Definition protoPatch : jvalue :=
  JObj [("__proto__", JObj [("a", JNum 1)]); ("b", JNum 2)].

Definition protoThenKey : jvalue :=
  JObj [("__proto__", JObj [("a", JObj [("x", JNum 1)])]);
        ("a", JObj [("y", JNum 2)])].

End JsObject.

(** ** The protocol: message shapes of [src/shared/protocol.ts] *)

Module Protocol.

Record PeerInfo := { username : string; avatarUrl : string }.

(** Client to server.  [UnknownClientMessage] is a frame that parses but
    whose [type] is none of the four kinds: no [case] of the server's
    [switch] matches it. *)
Inductive ClientToServerMessage :=
  | UpdatePresence (presence : object)
  | UpdateRoomState (roomState : object)
  | RequestPresenceUpdate (targetClientId : string) (update : object)
  | BroadcastEvent (event : object)
  | UnknownClientMessage.

(** Server to client. *)
Inductive ServerToClientMessage :=
  | Init (clientId : string) (roomState : object)
         (presence : gmap string object) (peers : gmap string PeerInfo)
  | PresenceUpdated (clientId : string) (presence : object)
  | RoomStateUpdated (roomState : object)
  | PresenceUpdateRequest (update : object) (fromClientId : string)
  | PeerJoined (clientId : string) (username : string) (avatarUrl : string)
  | PeerLeft (clientId : string)
  | Event (data : object)
  | UnknownServerMessage.

Definition isInit (msg : ServerToClientMessage) : bool :=
  match msg with Init _ _ _ _ => true | _ => false end.

End Protocol.
Import Protocol.

(** ** The relay: [WebsimServer] *)

Module Relay.

(** The three private fields of the server. *)
Record state := {
  peers : gmap string PeerInfo;
  presence : gmap string object;
  roomState : object
}.

Definition initial : state :=
  {| peers := ∅; presence := ∅; roomState := ∅ |}.

(** What [onConnect] reads from the request URL: [searchParams.get] gives a
    string or [null]. *)
Record ConnectionContext := {
  queryUsername : option string;
  queryAvatarUrl : option string
}.

(** Frames handed to the transport, in program order: recipient and frame. *)
Abbreviation outbox := (list (string * ServerToClientMessage)).

(** [a || b] where [a] is a string or [null]: the empty string is falsy. *)
Definition orElse (a : option string) (b : string) : string :=
  match a with
  | Some s => if String.eqb s "" then b else s
  | None => b
  end.

Definition send (conn : string) (msg : ServerToClientMessage) : outbox :=
  [(conn, msg)].

(** [conns] is [this.room.getConnections()], the ids of the connections the
    room holds when the handler runs. *)
Definition broadcast (conns : list string) (msg : ServerToClientMessage)
    (exclude : list string) : outbox :=
  (fun conn => (conn, msg)) <$> filter (fun conn => conn ∉ exclude) conns.

Definition getConnection (conns : list string) (id : string) : option string :=
  List.find (fun conn => bool_decide (conn = id)) conns.

(** A property [key: v] of an object literal, where [v] may be [undefined]:
    [JSON.stringify] leaves such a property out of the frame. *)
Definition setField (key : string) (v : option value) (o : object) : object :=
  match v with
  | Some x => <[key := x]> o
  | None => o
  end.

(** [{ ...o, ...extra }]: every own property of [extra] is written over [o]. *)
Definition spread (extra o : object) : object := extra ∪ o.

(** The payload of the [broadcast-event] case:
    [const { echo = true, type: eventType, ...rest } = msg.event;
     const eventData = { type: eventType, clientId: sender.id,
                         username: senderInfo.username, ...rest };] *)
Definition eventEcho (event : object) : value :=
  default (VBool true) (event !! "echo").

Definition eventRest (event : object) : object :=
  delete "type" (delete "echo" event).

Definition eventData (event : object) (sender : string) (senderInfo : PeerInfo)
    : object :=
  spread (eventRest event)
    (<["username" := VStr (username senderInfo)]>
      (<["clientId" := VStr sender]>
        (setField "type" (event !! "type") ∅))).

(** [this.presence[conn.id] = {}] and [peersObj[id] = info] create own
    properties: the handler for a connection id other than [__proto__], in
    a room where no peer is registered under that id. *)
Definition onConnect (conns : list string) (conn : string)
    (ctx : ConnectionContext) (st : state) : state * outbox :=
  let username :=
    orElse (queryUsername ctx) ("Guest-" ++ String.substring 0 4 conn) in
  let avatarUrl :=
    orElse (queryAvatarUrl ctx)
      ("https://api.dicebear.com/7.x/pixel-art/svg?seed=" ++ conn) in
  let peers' :=
    <[conn := {| username := username; avatarUrl := avatarUrl |}]> (peers st) in
  let presence' := <[conn := ∅]> (presence st) in
  ({| peers := peers'; presence := presence'; roomState := roomState st |},
   (send conn (Init conn (roomState st) presence' peers')
    ++ broadcast conns (PeerJoined conn username avatarUrl) [conn]
    ++ broadcast conns (PresenceUpdated conn ∅) [conn])%list).

(** [message] is the outcome of [JSON.parse(message)]: [None] when it throws. *)
Definition onMessage (conns : list string)
    (message : option ClientToServerMessage) (sender : string) (st : state)
    : state * outbox :=
  match message with
  | None => (st, [])
  | Some msg =>
      match peers st !! sender with
      | None => (st, [])
      | Some senderInfo =>
          match msg with
          | UpdatePresence p =>
              let merged := deepMerge (default ∅ (presence st !! sender)) p in
              ({| peers := peers st;
                  presence := <[sender := merged]> (presence st);
                  roomState := roomState st |},
               broadcast conns (PresenceUpdated sender merged) [])
          | UpdateRoomState rs =>
              let merged := deepMerge (roomState st) rs in
              ({| peers := peers st;
                  presence := presence st;
                  roomState := merged |},
               broadcast conns (RoomStateUpdated merged) [])
          | RequestPresenceUpdate targetClientId update =>
              match getConnection conns targetClientId with
              | Some targetConn =>
                  (st, send targetConn (PresenceUpdateRequest update sender))
              | None => (st, [])
              end
          | BroadcastEvent event =>
              let exclude :=
                if truthy (eventEcho event) then [] else [sender] in
              (st, broadcast conns (Event (eventData event sender senderInfo))
                     exclude)
          | UnknownClientMessage => (st, [])
          end
      end
  end.

Definition onClose (conns : list string) (conn : string) (st : state)
    : state * outbox :=
  match peers st !! conn with
  | None => (st, [])
  | Some _ =>
      ({| peers := delete conn (peers st);
          presence := delete conn (presence st);
          roomState := roomState st |},
       broadcast conns (PeerLeft conn) [])
  end.

(** What the transport hands to the server, one at a time. *)
Inductive input :=
  | Connect (conn : string) (ctx : ConnectionContext)
  | Message (message : option ClientToServerMessage) (sender : string)
  | Close (conn : string).

Definition step (conns : list string) (i : input) (st : state)
    : state * outbox :=
  match i with
  | Connect conn ctx => onConnect conns conn ctx st
  | Message message sender => onMessage conns message sender st
  | Close conn => onClose conns conn st
  end.

(** The server handles its inputs one at a time, in arrival order; each comes
    with the connections the room holds at that moment. *)
Fixpoint run (inputs : list (list string * input)) (st : state)
    : state * outbox :=
  match inputs with
  | [] => (st, [])
  | (conns, i) :: rest =>
      let '(st1, out1) := step conns i st in
      let '(st2, out2) := run rest st1 in
      (st2, (out1 ++ out2)%list)
  end.


(** States the server can be in: built from [initial] by its handlers. *)
Inductive reachable : state -> Prop :=
  | reachable_initial : reachable initial
  | reachable_step conns i st :
      reachable st -> reachable (fst (step conns i st)).

(** The frames a connection receives from an outbox. *)
Definition receivedBy (conn : string) (out : outbox)
    : list ServerToClientMessage :=
  snd <$> filter (fun cm => fst cm = conn) out.

(** The ids an outbox addresses, in order. *)
Definition recipients (out : outbox) : list string := fst <$> out.

(** The inputs of clients that send room-state patches one after the
    other: connections of the moment, sender, patch. *)
Definition roomStateUpdates (updates : list (list string * string * object))
    : list (list string * input) :=
  (fun u => (fst (fst u), Message (Some (UpdateRoomState (snd u))) (snd (fst u))))
    <$> updates.

(** The frames that answer these patches when the room state is [rs] before
    the first of them: each patch is answered with the room state merged so
    far, addressed to the connections of its moment. *)
Fixpoint roomStateAnswers (rs : object)
    (updates : list (list string * string * object)) : outbox :=
  match updates with
  | [] => []
  | (conns, _, patch) :: rest =>
      let merged := deepMerge rs patch in
      (((fun conn => (conn, RoomStateUpdated merged)) <$> conns)
       ++ roomStateAnswers merged rest)%list
  end.

End Relay.

(** ** The replica: [WebsimSocket] *)

Module Replica.

(** [socket.readyState]. *)
Inductive ReadyState := CONNECTING | OPEN | CLOSING | CLOSED.

(** The promise returned by [initialize()]. *)
Inductive Promise := NotStarted | Pending | Resolved | Rejected (reason : string).

(** What a method or a listener does to the outside, in program order.
    Callbacks are registered functions, identified by a number; a call is
    recorded with the arguments it receives.  Callbacks are taken not to call
    back into the replica while they run. *)
Inductive effect :=
  | SocketSend (msg : ClientToServerMessage)
  | SocketClose
  | PresenceCallback (cb : nat) (presence : gmap string object)
  | RoomStateCallback (cb : nat) (roomState : object)
  | PresenceUpdateRequestCallback (cb : nat) (update : object)
                                  (fromClientId : string)
  | OnMessage (handler : nat) (data : object).

Record state := {
  _presence : gmap string object;
  _roomState : object;
  _peers : gmap string PeerInfo;
  _clientId : string;
  socket : option ReadyState;
  presenceSubscribers : list nat;
  roomStateSubscribers : list nat;
  presenceUpdateRequestSubscribers : list nat;
  onmessage : option nat;
  initialized : Promise;
  timeoutArmed : bool
}.

(** [new WebsimSocket(options)]. *)
Definition create : state :=
  {| _presence := ∅; _roomState := ∅; _peers := ∅; _clientId := "";
     socket := None;
     presenceSubscribers := []; roomStateSubscribers := [];
     presenceUpdateRequestSubscribers := [];
     onmessage := None; initialized := NotStarted; timeoutArmed := false |}.

(** The local mirror. *)
Definition mirror (st : state)
    : gmap string object * object * gmap string PeerInfo * string :=
  (_presence st, _roomState st, _peers st, _clientId st).

Definition withMirror (p : gmap string object) (rs : object)
    (prs : gmap string PeerInfo) (cid : string) (st : state) : state :=
  {| _presence := p; _roomState := rs; _peers := prs; _clientId := cid;
     socket := socket st;
     presenceSubscribers := presenceSubscribers st;
     roomStateSubscribers := roomStateSubscribers st;
     presenceUpdateRequestSubscribers := presenceUpdateRequestSubscribers st;
     onmessage := onmessage st; initialized := initialized st;
     timeoutArmed := timeoutArmed st |}.

Definition withConnection (s : option ReadyState) (pr : Promise) (armed : bool)
    (st : state) : state :=
  {| _presence := _presence st; _roomState := _roomState st;
     _peers := _peers st; _clientId := _clientId st;
     socket := s;
     presenceSubscribers := presenceSubscribers st;
     roomStateSubscribers := roomStateSubscribers st;
     presenceUpdateRequestSubscribers := presenceUpdateRequestSubscribers st;
     onmessage := onmessage st; initialized := pr; timeoutArmed := armed |}.

Definition withSubscribers (ps rs us : list nat) (h : option nat) (st : state)
    : state :=
  {| _presence := _presence st; _roomState := _roomState st;
     _peers := _peers st; _clientId := _clientId st;
     socket := socket st;
     presenceSubscribers := ps; roomStateSubscribers := rs;
     presenceUpdateRequestSubscribers := us;
     onmessage := h; initialized := initialized st;
     timeoutArmed := timeoutArmed st |}.

(** [Set.add] and [Set.delete] on a set kept in insertion order. *)
Definition setAdd (cb : nat) (s : list nat) : list nat :=
  if decide (cb ∈ s) then s else (s ++ [cb])%list.

Definition setDelete (cb : nat) (s : list nat) : list nat :=
  filter (fun c => c ≠ cb) s.

Definition subscribePresence (cb : nat) (st : state) : state :=
  withSubscribers (setAdd cb (presenceSubscribers st))
    (roomStateSubscribers st) (presenceUpdateRequestSubscribers st)
    (onmessage st) st.

Definition subscribeRoomState (cb : nat) (st : state) : state :=
  withSubscribers (presenceSubscribers st)
    (setAdd cb (roomStateSubscribers st))
    (presenceUpdateRequestSubscribers st) (onmessage st) st.

Definition subscribePresenceUpdateRequests (cb : nat) (st : state) : state :=
  withSubscribers (presenceSubscribers st) (roomStateSubscribers st)
    (setAdd cb (presenceUpdateRequestSubscribers st)) (onmessage st) st.

(** The assignment [room.onmessage = handler]. *)
Definition setOnmessage (h : option nat) (st : state) : state :=
  withSubscribers (presenceSubscribers st) (roomStateSubscribers st)
    (presenceUpdateRequestSubscribers st) h st.

(** [this.onmessage?.({ data })]. *)
Definition fireOnmessage (st : state) (data : object) : list effect :=
  match onmessage st with
  | Some h => [OnMessage h data]
  | None => []
  end.

Definition notifyPresence (st : state) : list effect :=
  (fun cb => PresenceCallback cb (_presence st)) <$> presenceSubscribers st.

Definition notifyRoomState (st : state) : list effect :=
  (fun cb => RoomStateCallback cb (_roomState st)) <$> roomStateSubscribers st.

Definition peerEvent (kind clientId username : string) : object :=
  <["username" := VStr username]>
    (<["clientId" := VStr clientId]> (<["type" := VStr kind]> ∅)).

(** [this._presence[msg.clientId] = ...] and [this._peers[msg.clientId] =
    ...] create own properties, and [this._peers[msg.clientId]] reads one:
    the handler for frames whose [clientId] is not [__proto__]. *)
Definition handleMessage (msg : ServerToClientMessage) (st : state)
    : state * list effect :=
  match msg with
  | PresenceUpdated clientId presence =>
      let st' := withMirror (<[clientId := presence]> (_presence st))
                   (_roomState st) (_peers st) (_clientId st) st in
      (st', notifyPresence st')
  | RoomStateUpdated roomState =>
      let st' := withMirror (_presence st) roomState (_peers st)
                   (_clientId st) st in
      (st', notifyRoomState st')
  | PresenceUpdateRequest update fromClientId =>
      (st, (fun cb => PresenceUpdateRequestCallback cb update fromClientId)
             <$> presenceUpdateRequestSubscribers st)
  | PeerJoined clientId username avatarUrl =>
      let st' := withMirror (_presence st) (_roomState st)
                   (<[clientId := {| username := username;
                                     avatarUrl := avatarUrl |}]> (_peers st))
                   (_clientId st) st in
      (st', fireOnmessage st' (peerEvent "connected" clientId username))
  | PeerLeft clientId =>
      let peerInfo := _peers st !! clientId in
      let st' := withMirror (delete clientId (_presence st)) (_roomState st)
                   (delete clientId (_peers st)) (_clientId st) st in
      (st', (fireOnmessage st'
               (peerEvent "disconnected" clientId
                  (from_option username "" peerInfo))
             ++ notifyPresence st')%list)
  | Event data => (st, fireOnmessage st data)
  | Init _ _ _ _ => (st, [])
  | UnknownServerMessage => (st, [])
  end.

(** [resolve()] and [reject(err)] settle a promise once. *)
Definition resolve (p : Promise) : Promise :=
  match p with Pending => Resolved | _ => p end.

Definition reject (reason : string) (p : Promise) : Promise :=
  match p with Pending => Rejected reason | _ => p end.

(** [initialize()] up to the point where it suspends: the socket is created
    and the timer armed. *)
Definition initialize (st : state) : state :=
  withConnection (Some CONNECTING) Pending true st.

(** The transport moves the socket to another ready state. *)
Definition transport (rs : ReadyState) (st : state) : state :=
  match socket st with
  | Some _ => withConnection (Some rs) (initialized st) (timeoutArmed st) st
  | None => st
  end.

(** The ["message"] listener installed by [initialize()]; [frame] is the
    outcome of [JSON.parse(event.data)], [None] when it throws. *)
Definition onSocketMessage (frame : option ServerToClientMessage) (st : state)
    : state * list effect :=
  match frame with
  | None => (st, [])
  | Some (Init clientId roomState presence peers) =>
      (withConnection (socket st) (resolve (initialized st)) false
         (withMirror presence roomState peers clientId st), [])
  | Some msg => handleMessage msg st
  end.

(** [cleanup(err)]. *)
Definition cleanup (reason : string) (st : state) : state * list effect :=
  (withConnection None (reject reason (initialized st)) (timeoutArmed st) st,
   match socket st with Some _ => [SocketClose] | None => [] end).

(** The timer callback, when the timer has not been cleared. *)
Definition onTimeout (st : state) : state * list effect :=
  if timeoutArmed st
  then cleanup "WebsimSocket: initialization timed out"
         (withConnection (socket st) (initialized st) false st)
  else (st, []).

(** The ["error"] listener. *)
Definition onSocketError (st : state) : state * list effect :=
  cleanup "error" (withConnection (socket st) (initialized st) false st).

Definition sendToServer (msg : ClientToServerMessage) (st : state)
    : list effect :=
  match socket st with
  | Some OPEN => [SocketSend msg]
  | _ => []
  end.

Definition updatePresence (presence : object) (st : state)
    : state * list effect :=
  let st' :=
    withMirror
      (<[_clientId st :=
           deepMerge (default ∅ (_presence st !! _clientId st)) presence]>
         (_presence st))
      (_roomState st) (_peers st) (_clientId st) st in
  (st', sendToServer (UpdatePresence presence) st').



Definition send (event : object) (st : state) : state * list effect :=
  (st, sendToServer (BroadcastEvent event) st).


Definition unsubscribeRoomState (cb : nat) (st : state) : state :=
  withSubscribers (presenceSubscribers st)
    (setDelete cb (roomStateSubscribers st))
    (presenceUpdateRequestSubscribers st) (onmessage st) st.

Definition unsubscribePresenceUpdateRequests (cb : nat) (st : state) : state :=
  withSubscribers (presenceSubscribers st) (roomStateSubscribers st)
    (setDelete cb (presenceUpdateRequestSubscribers st)) (onmessage st) st.

(** [path.replace(/^\/+|\/+$/g, "")]: the run of slashes at the start and
    the run of slashes at the end are removed. *)
Definition isSlash (c : ascii) : bool := Ascii.eqb c "/"%char.

Fixpoint dropLeadingSlashes (s : string) : string :=
  match s with
  | String c rest => if isSlash c then dropLeadingSlashes rest else s
  | EmptyString => EmptyString
  end.

Fixpoint dropTrailingSlashes (s : string) : string :=
  match s with
  | String c rest =>
      match dropTrailingSlashes rest with
      | EmptyString => if isSlash c then EmptyString else String c EmptyString
      | kept => String c kept
      end
  | EmptyString => EmptyString
  end.

Definition trimSlashes (path : string) : string :=
  dropTrailingSlashes (dropLeadingSlashes path).

(** [getRoomFromUrl()]; [pathname] is [window.location.pathname], [None]
    where there is no [window]. *)
Definition getRoomFromUrl (pathname : option string) : string :=
  match pathname with
  | Some p =>
      let path := trimSlashes p in
      if String.eqb path "" then "default" else path
  | None => "default"
  end.

(** The frames of a list reach the ["message"] listener one after the
    other, in order. *)
Fixpoint deliver (frames : list ServerToClientMessage) (st : state)
    : state * list effect :=
  match frames with
  | [] => (st, [])
  | frame :: rest =>
      let '(st1, e1) := onSocketMessage (Some frame) st in
      let '(st2, e2) := deliver rest st1 in
      (st2, (e1 ++ e2)%list)
  end.

(** The mirror of a replica holds what the server holds. *)
Definition synced (rs : Relay.state) (st : state) : Prop :=
  _presence st = Relay.presence rs /\
  _roomState st = Relay.roomState rs /\
  _peers st = Relay.peers rs.

End Replica.

(** ** The merge engine over a store of mutable objects

    [deepMerge] builds its result by assignment and [delete] on an object it
    allocates.  To state what it leaves untouched, objects live in a store:
    a value is a primitive or a reference to a cell, and a cell is a plain
    object or an array.  Arrays are never read or written by [deepMerge].
    A cell holds the own properties of its object. *)

Module Store.

Definition loc := positive.

Inductive hvalue :=
  | HUndefined
  | HNull
  | HBool (b : bool)
  | HNum (n : Z)
  | HStr (s : string)
  | HRef (l : loc).

#[global] Instance hvalue_eq_dec : EqDecision hvalue.
Proof. solve_decision. Defined.

Inductive cell :=
  | Obj (props : gmap string hvalue)
  | Arr (elems : list hvalue).

Abbreviation heap := (gmap loc cell).

(** [o[key]]: [undefined] when [o] has no such property. *)
Definition getProp (h : heap) (l : loc) (key : string) : hvalue :=
  match h !! l with
  | Some (Obj props) => default HUndefined (props !! key)
  | _ => HUndefined
  end.

(** [o[key] = v]. *)
Definition setProp (h : heap) (l : loc) (key : string) (v : hvalue) : heap :=
  match h !! l with
  | Some (Obj props) => <[l := Obj (<[key := v]> props)]> h
  | _ => h
  end.

(** [delete o[key]]. *)
Definition deleteProp (h : heap) (l : loc) (key : string) : heap :=
  match h !! l with
  | Some (Obj props) => <[l := Obj (delete key props)]> h
  | _ => h
  end.

(** [typeof v === "object" && !Array.isArray(v) && v !== null]: the cell
    behind [v] when the test holds. *)
Definition plainObject (h : heap) (v : hvalue) : option loc :=
  match v with
  | HRef l =>
      match h !! l with
      | Some (Obj _) => Some l
      | _ => None
      end
  | _ => None
  end.

(** [Object.keys(o)]. *)
Definition keys (props : gmap string hvalue) : list string :=
  fst <$> map_to_list props.

(** One iteration of the loop, on the store [h]; [rec] is the recursive
    call.  Cells hold own properties: this is the iteration at a key other
    than [__proto__]. *)
Definition mergeKey (rec : heap -> loc -> loc -> option (heap * loc))
    (source result : loc) (h : heap) (key : string) : option heap :=
  match getProp h source key with
  | HNull => Some (deleteProp h result key)
  | sv =>
      match plainObject h sv, plainObject h (getProp h result key) with
      | Some sl, Some tl =>
          match rec h tl sl with
          | Some (h', merged) => Some (setProp h' result key (HRef merged))
          | None => None
          end
      | _, _ => Some (setProp h result key sv)
      end
  end.

(** The loop over [keys]; once a recursive call runs out of fuel, the rest
    is skipped. *)
Definition mergeLoop (rec : heap -> loc -> loc -> option (heap * loc))
    (source result : loc) (h0 : heap) (ks : list string) : option heap :=
  foldl (fun acc key =>
           match acc with
           | Some h1 => mergeKey rec source result h1 key
           | None => None
           end)
        (Some h0) ks.

(** [deepMerge(target, source)] on references; [fuel] bounds the depth of
    the recursion.  It returns the store after the call and the reference to
    the result, the cell allocated for [{ ...target }]. *)
Fixpoint deepMerge (fuel : nat) (h : heap) (target source : loc)
    : option (heap * loc) :=
  match fuel with
  | O => None
  | S fuel' =>
      match h !! target, h !! source with
      | Some (Obj tprops), Some (Obj sprops) =>
          let result := fresh (dom h) in
          let h0 := <[result := Obj tprops]> h in
          match mergeLoop (deepMerge fuel') source result h0 (keys sprops) with
          | Some h' => Some (h', result)
          | None => None
          end
      | _, _ => None
      end
  end.

(** The document a value of the store stands for. *)
Inductive represents (h : heap) : hvalue -> value -> Prop :=
  | represents_null : represents h HNull VNull
  | represents_bool b : represents h (HBool b) (VBool b)
  | represents_num n : represents h (HNum n) (VNum n)
  | represents_str s : represents h (HStr s) (VStr s)
  | represents_arr l elems velems :
      h !! l = Some (Arr elems) ->
      Forall2 (represents h) elems velems ->
      represents h (HRef l) (VArr velems)
  | represents_obj l props vprops :
      h !! l = Some (Obj props) ->
      (forall key, option_Forall2 (represents h) (props !! key) (vprops !! key)) ->
      represents h (HRef l) (VObj vprops).

(** What a call that went from store [h] to store [h'] built at [result]
    from [target] and [source]: a cell that did not exist in [h], in which
    - a key [source] lacks keeps the value [target] holds there (shared);
    - a key [source] holds [null] at is absent;
    - a key where both hold plain objects holds a reference to a cell built
      in the same way from these two;
    - any other key holds the value [source] holds there (shared).
    [keyBuilt] relates what [target], [source] and the result hold at one
    key. *)
Inductive built (h h' : heap) : loc -> loc -> loc -> Prop :=
  | built_intro target source result tprops sprops rprops :
      h !! target = Some (Obj tprops) ->
      h !! source = Some (Obj sprops) ->
      h !! result = None ->
      h' !! result = Some (Obj rprops) ->
      (forall key,
         keyBuilt h h' (tprops !! key) (sprops !! key) (rprops !! key)) ->
      built h h' target source result
with keyBuilt (h h' : heap)
    : option hvalue -> option hvalue -> option hvalue -> Prop :=
  | key_kept tv : keyBuilt h h' tv None tv
  | key_deleted tv : keyBuilt h h' tv (Some HNull) None
  | key_merged tv sv tl sl merged :
      plainObject h sv = Some sl ->
      plainObject h (default HUndefined tv) = Some tl ->
      built h h' tl sl merged ->
      keyBuilt h h' tv (Some sv) (Some (HRef merged))
  | key_stored tv sv :
      sv <> HNull ->
      plainObject h sv = None \/
        plainObject h (default HUndefined tv) = None ->
      keyBuilt h h' tv (Some sv) (Some sv).

Scheme built_mut := Minimality for built Sort Prop
  with keyBuilt_mut := Minimality for keyBuilt Sort Prop.

(** What the frame property asks of a call. *)
Definition framed (rec : heap -> loc -> loc -> option (heap * loc)) : Prop :=
  forall h target source h' result,
    rec h target source = Some (h', result) ->
    h ⊆ h' /\ h !! result = None /\ is_Some (h' !! result).

(** What a call achieves when the part [hin] of the store [hall] holds its
    two arguments as documents and the fuel [n] covers [source]: it returns,
    and beside [hin] only new cells make up the part [hout] that holds the
    result, the merge of the two documents, built as [built] says. *)
Definition merges (rec : heap -> loc -> loc -> option (heap * loc)) (n : nat)
    : Prop :=
  forall hin hall target source tv sv,
    hin ⊆ hall ->
    represents hin (HRef target) (VObj tv) ->
    represents hin (HRef source) (VObj sv) ->
    vsize (VObj sv) <= n ->
    exists h' result hout,
      rec hall target source = Some (h', result) /\
      hin ⊆ hout /\ hout ⊆ h' /\
      (forall l, is_Some (hout !! l) -> is_Some (hin !! l) \/ hall !! l = None) /\
      represents hout (HRef result) (VObj (MergeEngine.deepMerge tv sv)) /\
      built hin hout target source result.

(** The invariant of the loop, once the keys [done] have been handled and
    the store is [hc]: the store the call started from is intact, and the
    result cell holds, at a handled key, what the merge holds there and, at
    any other key, what [target] holds.  [hrest] is the part of [hc] made of
    [hin] and of the cells the recursive calls allocated. *)
Definition loopInv (hin hall : heap) (result : loc)
    (tprops sprops : gmap string hvalue) (tv sv : object)
    (done : gset string) (hc : heap) : Prop :=
  exists hrest rprops,
    hall ⊆ hc /\ hc !! result = Some (Obj rprops) /\
    hin ⊆ hrest /\ hrest ⊆ hc /\ hrest !! result = None /\
    (forall l, is_Some (hrest !! l) -> is_Some (hin !! l) \/ hall !! l = None) /\
    (forall key, key ∈ done ->
       option_Forall2 (represents hrest) (rprops !! key)
         (MergeEngine.deepMerge tv sv !! key) /\
       keyBuilt hin hrest (tprops !! key) (sprops !! key) (rprops !! key)) /\
    (forall key, key ∉ done -> rprops !! key = tprops !! key).

(** Sample store: [1 ↦ {a: ref 2}], [2 ↦ {b: 1}], [3 ↦ {a: ref 4}],
    [4 ↦ {c: 2}]; merging cell 3 into cell 1. *)
Definition sampleHeap : heap :=
  <[1%positive := Obj (<["a" := HRef 2%positive]> ∅)]>
    (<[2%positive := Obj (<["b" := HNum 1]> ∅)]>
      (<[3%positive := Obj (<["a" := HRef 4%positive]> ∅)]>
        (<[4%positive := Obj (<["c" := HNum 2]> ∅)]> ∅))).

(** Sample store: [1 ↦ {}], [3 ↦ {n: ref 4}], [4 ↦ {c: 2}]; merging
    cell 3 into cell 1. *)
Definition aliasHeap : heap :=
  <[1%positive := Obj ∅]>
    (<[3%positive := Obj (<["n" := HRef 4%positive]> ∅)]>
      (<[4%positive := Obj (<["c" := HNum 2]> ∅)]> ∅)).

End Store.

(** ** Sample rooms and documents used to exercise the definitions *)

Module Samples.

Definition alice : PeerInfo := {| username := "Alice"; avatarUrl := "" |}.
Definition bob : PeerInfo := {| username := "Bob"; avatarUrl := "" |}.

(** A room with two connections, ["a"] and ["b"]. *)
Definition room : Relay.state :=
  {| Relay.peers := <["a" := alice]> (<["b" := bob]> ∅);
     Relay.presence := <["a" := ∅]> (<["b" := ∅]> ∅);
     Relay.roomState := ∅ |}.

Definition conns : list string := ["a"; "b"].

Definition noQuery : Relay.ConnectionContext :=
  {| Relay.queryUsername := None; Relay.queryAvatarUrl := None |}.

Definition x1 : object := <["x" := VNum 1]> ∅.
Definition x2 : object := <["x" := VNum 2]> ∅.

(** [{a: 1}], [{a: null}], [{a: {b: 1}}], [{a: {c: 2}}] and
    [{a: {b: 1, c: 2}}]. *)
Definition a1 : object := <["a" := VNum 1]> ∅.
Definition aNull : object := <["a" := VNull]> ∅.
Definition nestedB : object := <["a" := VObj (<["b" := VNum 1]> ∅)]> ∅.
Definition nestedC : object := <["a" := VObj (<["c" := VNum 2]> ∅)]> ∅.
Definition nestedBC : object :=
  <["a" := VObj (<["b" := VNum 1]> (<["c" := VNum 2]> ∅))]> ∅.

(** [{ type: "x", echo: false }] and [{ type: "x" }]. *)
Definition quietEvent : object :=
  <["type" := VStr "x"]> (<["echo" := VBool false]> ∅).
Definition plainEvent : object := <["type" := VStr "x"]> ∅.

(** An event in which connection ["a"] names ["b"] and Bob as its origin. *)
Definition forgedEvent : object :=
  <["type" := VStr "x"]>
    (<["clientId" := VStr "b"]> (<["username" := VStr "Bob"]> ∅)).

Definition y1 : object := <["y" := VNum 1]> ∅.

(** [{a: {b: null}}]. *)
Definition nestedNull : object := <["a" := VObj (<["b" := VNull]> ∅)]> ∅.

(** A replica that waits for [init], with one presence subscriber. *)
Definition waiting : Replica.state :=
  Replica.subscribePresence 7 (Replica.initialize Replica.create).

End Samples.

(** * Properties *)

(** ** Induction on documents *)

Section ValueInduction.

Lemma vsize_lookup (props : object) (k : string) (v : value) :
  props !! k = Some v -> vsize v < vsize (VObj props).
Proof.
  intros Hk. simpl.
  rewrite (map_fold_delete_L _ _ k v props); [lia | | exact Hk].
  intros; lia.
Qed.

(** Strong induction on the size of the source document. *)
Lemma object_ind (P : object -> Prop) :
  (forall props,
     (forall k sub, props !! k = Some (VObj sub) -> P sub) -> P props) ->
  forall props, P props.
Proof.
  intros Hstep props.
  remember (vsize (VObj props)) as n eqn:Hn.
  revert props Hn.
  induction n as [n IH] using lt_wf_ind.
  intros props ->. apply Hstep. intros k sub Hk.
  apply (IH (vsize (VObj sub))); [|reflexivity].
  apply (vsize_lookup _ _ _ Hk).
Qed.

End ValueInduction.

(** ** The merge engine *)

Section MergeFacts.

(** The loop body is [mergeStep] with the function itself as recursive call. *)
Lemma deepMerge_unfold (target source : object) :
  deepMerge target source =
  map_fold (mergeStep deepMergeV) target source.
Proof. reflexivity. Qed.

(** What the result holds at a key, in terms of the two arguments.  The
    accumulator still holds [target]'s value at a key when the loop reaches
    it, because [Object.keys] lists each key once. *)
Lemma deepMerge_lookup (target source : object) (k : string) :
  deepMerge target source !! k =
  mergeAtKey deepMergeV (source !! k) (target !! k).
Proof.
  rewrite deepMerge_unfold.
  apply (map_fold_weak_ind
    (fun (r : object) (m : object) =>
       forall k, r !! k = mergeAtKey deepMergeV (m !! k) (target !! k))).
  - intros j. by rewrite lookup_empty.
  - clear k. intros i x m r Hi IH j.
    pose proof (IH i) as IHi. rewrite Hi in IHi. simpl in IHi.
    destruct (decide (i = j)) as [<-|Hne].
    + rewrite lookup_insert_eq. unfold mergeStep.
      destruct x; simpl; rewrite ?lookup_delete_eq, ?lookup_insert_eq; try done.
      rewrite IHi.
      destruct (target !! i) as [[]|]; by rewrite lookup_insert_eq.
    + rewrite lookup_insert_ne by done. rewrite <- IH. unfold mergeStep.
      destruct x; simpl; rewrite ?lookup_delete_ne, ?lookup_insert_ne by done;
        try done.
      destruct (r !! i) as [[]|]; by rewrite lookup_insert_ne.
Qed.

(** One iteration changes the key it handles and no other. *)
Lemma mergeStep_lookup rec (key k : string) (sv : value) (result : object) :
  mergeStep rec key sv result !! k =
  if decide (k = key) then mergeAtKey rec (Some sv) (result !! key)
  else result !! k.
Proof.
  unfold mergeStep. case_decide as Hk; [subst k|].
  - destruct sv; simpl; rewrite ?lookup_delete_eq, ?lookup_insert_eq; try done.
    destruct (result !! key) as [[]|]; by rewrite lookup_insert_eq.
  - destruct sv; simpl; rewrite ?lookup_delete_ne, ?lookup_insert_ne by done;
      try done.
    destruct (result !! key) as [[]|]; by rewrite lookup_insert_ne.
Qed.

Lemma deepMergeIn_lookup (order : list (string * value)) (target : object)
    (k : string) :
  NoDup (fst <$> order) ->
  deepMergeIn order target !! k =
  mergeAtKey deepMergeV ((list_to_map order : object) !! k) (target !! k).
Proof.
  revert target. induction order as [|[k0 v0] order IH]; intros target Hnd.
  - simpl. by rewrite lookup_empty.
  - rewrite fmap_cons in Hnd. apply NoDup_cons in Hnd as [Hk0 Hnd].
    unfold deepMergeIn in *. simpl. rewrite (IH _ Hnd), mergeStep_lookup.
    case_decide as Hk; [subst k|].
    + rewrite lookup_insert_eq.
      by rewrite (not_elem_of_list_to_map_1 order k0 Hk0).
    + by rewrite lookup_insert_ne.
Qed.

(** The order in which the keys of [source] are listed does not matter:
    any listing of its entries gives the result of [deepMerge]. *)
Lemma deepMerge_any_order (order : list (string * value))
    (target source : object) :
  NoDup (fst <$> order) ->
  (forall k v, (k, v) ∈ order <-> source !! k = Some v) ->
  deepMergeIn order target = deepMerge target source.
Proof.
  intros Hnd Hsrc. apply map_eq. intros k.
  rewrite deepMergeIn_lookup, deepMerge_lookup by done.
  f_equal. destruct (source !! k) as [v|] eqn:Hk.
  - apply elem_of_list_to_map; [done|]. by apply Hsrc.
  - apply not_elem_of_list_to_map_1. intros Hin.
    apply list_elem_of_fmap in Hin as [[k' v] [-> Hin]].
    apply Hsrc in Hin. simpl in *. congruence.
Qed.

Lemma mergeRef_lookup (target source : object) (k : string) :
  mergeRef target source !! k =
  mergeAtKey mergeRefV (source !! k) (target !! k).
Proof.
  unfold mergeRef. simpl. rewrite lookup_merge.
  destruct (source !! k) as [[]|], (target !! k) as [[]|]; reflexivity.
Qed.

Lemma deepMerge_mergeRef (target source : object) :
  deepMerge target source = mergeRef target source.
Proof.
  revert target. induction source as [source IH] using object_ind.
  intros target. apply map_eq. intros k.
  rewrite deepMerge_lookup, mergeRef_lookup.
  destruct (source !! k) as [[]|] eqn:Hs; simpl; try reflexivity.
  destruct (target !! k) as [[]|]; try reflexivity.
  do 2 f_equal. apply (IH k props Hs).
Qed.

(** On own properties the loop is the merge of the design document: for
    every key of [source], [null] removes the key (whatever subtree [target]
    holds there, and nothing happens when it holds none), two mappings are
    merged recursively, and anything else is stored as it is; keys absent
    from [source] keep what [target] holds.  The four sample merges of the
    document come out as it says. *)
Theorem deepMerge_is_reference_merge :
  (forall target source, deepMerge target source = mergeRef target source) /\
  (forall target source key,
     deepMerge target source !! key =
     mergeAtKey deepMergeV (source !! key) (target !! key)) /\
  (forall target source key,
     deepMerge target (<[key := VNull]> source) !! key = None) /\
  (forall target source key elems,
     deepMerge target (<[key := VArr elems]> source) !! key
       = Some (VArr elems)) /\
  deepMerge ∅ Samples.a1 = Samples.a1 /\
  deepMerge Samples.a1 Samples.aNull = ∅ /\
  deepMerge Samples.nestedB Samples.nestedC = Samples.nestedBC /\
  deepMerge Samples.nestedB Samples.aNull = ∅ /\
  deepMerge ∅ Samples.aNull = ∅.
Proof.
  split; [exact deepMerge_mergeRef|].
  split; [exact deepMerge_lookup|].
  split; [intros; by rewrite deepMerge_lookup, lookup_insert_eq|].
  split; [intros; by rewrite deepMerge_lookup, lookup_insert_eq|].
  repeat split.
Qed.

End MergeFacts.

(** ** The merge engine and the prototype of its result *)

Section PrototypeFacts.

Import JsObject.

Lemma jvalue_entries_ind (P : jvalue -> Prop) :
  P JNull -> (forall b, P (JBool b)) -> (forall n, P (JNum n)) ->
  (forall s, P (JStr s)) -> (forall elems, P (JArr elems)) ->
  (forall entries, Forall (fun kv => P (snd kv)) entries -> P (JObj entries)) ->
  forall j, P j.
Proof.
  intros Hnull Hbool Hnum Hstr Harr Hobj.
  fix IH 1.
  intros [|b|n|s|elems|entries];
    [exact Hnull|apply Hbool|apply Hnum|apply Hstr|apply Harr|].
  apply Hobj. induction entries as [|kv rest IHrest]; constructor;
    [apply IH|exact IHrest].
Qed.

Lemma get_own_key (own : object) (key : string) :
  key <> protoKey -> get own [] key = own !! key.
Proof.
  intros Hkey. unfold get. destruct (own !! key); [done|].
  simpl. by rewrite decide_False.
Qed.

Lemma set_own_key (own : object) (key : string) (v : value) vchain :
  key <> protoKey -> set own [] key v vchain = (<[key := v]> own, []).
Proof.
  intros Hkey. unfold set. rewrite decide_False; [done|]. by intros [? _].
Qed.

Lemma forget_entries entries : forget (JObj entries) = VObj (document entries).
Proof. reflexivity. Qed.

(** For a source without [__proto__] keys the prototype of the result is
    never replaced, and the loop is the loop on own properties. *)
Lemma deepMerge_loop (entries : list (string * jvalue)) :
  Forall (fun kv =>
            JsObject.protoFree (snd kv) = true ->
            forall target,
              JsObject.deepMerge target (snd kv)
              = (deepMergeV target (forget (snd kv)), [])) entries ->
  JsObject.protoFree (JObj entries) = true ->
  forall target,
    JsObject.deepMerge target (JObj entries)
    = (deepMergeIn ((fun kv => (fst kv, forget (snd kv))) <$> entries) target,
       []).
Proof.
  intros Hrec Hfree target. cbn [JsObject.deepMerge]. unfold deepMergeIn.
  cbn [JsObject.protoFree] in Hfree.
  revert target. induction Hrec as [|[k v] rest Hv Hrest IH]; intros target;
    [done|].
  cbn [forallb fst snd] in Hfree.
  apply andb_prop in Hfree as [Hkv Hfree].
  apply andb_prop in Hkv as [Hk Hvfree].
  apply negb_true_iff, String.eqb_neq in Hk.
  cbn [fold_left fmap list_fmap foldl fst snd].
  specialize (IH Hfree).
  cbn [snd] in Hv. specialize (Hv Hvfree).
  destruct v as [| | | | |es]; cbn [fst snd];
    rewrite ?(set_own_key _ _ _ _ Hk); try apply IH.
  (* a mapping *)
  rewrite (get_own_key _ _ Hk). unfold mergeStep at 2.
  rewrite forget_entries. rewrite <- forget_entries.
  destruct (target !! k) as [[| | | | |tprops]|] eqn:Ht;
    rewrite ?(set_own_key _ _ _ _ Hk); try apply IH.
  rewrite Hv. cbn [fst]. apply IH.
Qed.

Lemma document_lookup (entries : list (string * jvalue)) :
  NoDup (fst <$> entries) ->
  forall k v,
    (k, v) ∈ ((fun kv => (fst kv, forget (snd kv))) <$> entries)
    <-> document entries !! k = Some v.
Proof.
  intros Hnd k v. unfold document.
  apply elem_of_list_to_map. by rewrite <- list_fmap_compose.
Qed.

Lemma deepMerge_own (source : jvalue) :
  distinctKeys source = true ->
  JsObject.protoFree source = true ->
  forall target,
    JsObject.deepMerge target source
    = (deepMergeV target (forget source), []).
Proof.
  induction source as [|b|n|s|elems|entries IH] using jvalue_entries_ind;
    try done.
  intros Hkeys Hfree target.
  cbn [distinctKeys] in Hkeys. apply andb_prop in Hkeys as [Hnd Hkeys].
  apply bool_decide_eq_true in Hnd.
  rewrite deepMerge_loop; [|
    |done].
  - f_equal. rewrite forget_entries.
    apply (deepMerge_any_order _ target (document entries)).
    + by rewrite <- list_fmap_compose.
    + by apply document_lookup.
  - rewrite forallb_forall in Hkeys.
    apply Forall_forall. intros kv Hin. rewrite Forall_forall in IH.
    intros Hf. apply (IH kv Hin); [|done].
    apply Hkeys. by apply list_elem_of_In.
Qed.


(** C2. A patch with a key [__proto__], as [JSON.parse] builds it from a
    frame, is not merged as the design document says: [deepMerge] reads
    [Object.prototype] at that key, merges the patch's value into a copy of
    it and installs the outcome as prototype of the result, so the result
    has no such key, where the merge of the document stores the value under
    the key.  Keys handled after it are merged with what the new prototype
    holds. *)
Theorem deepMerge_at_proto_key :
  JsObject.deepMerge ∅ protoPatch
    = (<["b" := VNum 2]> ∅, [VObj (<["a" := VNum 1]> ∅)]) /\
  mergeRef ∅ (ownProps (forget protoPatch))
    = <["__proto__" := VObj (<["a" := VNum 1]> ∅)]> (<["b" := VNum 2]> ∅) /\
  fst (JsObject.deepMerge ∅ protoPatch) !! "__proto__" = None /\
  mergeRef ∅ (ownProps (forget protoPatch)) !! "__proto__"
    = Some (VObj (<["a" := VNum 1]> ∅)) /\
  fst (JsObject.deepMerge ∅ protoThenKey)
    = <["a" := VObj (<["x" := VNum 1]> (<["y" := VNum 2]> ∅))]> ∅ /\
  mergeRef ∅ (ownProps (forget protoThenKey)) !! "a"
    = Some (VObj (<["y" := VNum 2]> ∅)).
Proof. repeat split; by vm_compute. Qed.

(** X22. For a patch without a key [__proto__] in any nested mapping, the
    prototype of the result is never replaced, its own properties are those
    the loop on own properties computes, whatever the order of the keys, and
    they are the merge of the design document. *)
Theorem deepMerge_without_proto_keys target entries :
  distinctKeys (JObj entries) = true ->
  JsObject.protoFree (JObj entries) = true ->
  JsObject.deepMerge target (JObj entries)
    = (MergeEngine.deepMerge target (document entries), []) /\
  MergeEngine.deepMerge target (document entries)
    = mergeRef target (document entries).
Proof.
  intros Hkeys Hfree. split; [|apply deepMerge_mergeRef].
  by rewrite deepMerge_own.
Qed.

Lemma deepMerge_without_proto_keys_witness :
  JsObject.deepMerge Samples.nestedB (JObj [("a", JObj [("c", JNum 2)])])
    = (MergeEngine.deepMerge Samples.nestedB
         (document [("a", JObj [("c", JNum 2)])]), []) /\
  MergeEngine.deepMerge Samples.nestedB
      (document [("a", JObj [("c", JNum 2)])])
    = mergeRef Samples.nestedB (document [("a", JObj [("c", JNum 2)])]).
Proof.
  apply (deepMerge_without_proto_keys Samples.nestedB
           [("a", JObj [("c", JNum 2)])]); reflexivity.
Defined.

(** One iteration on an object whose prototype was never replaced, at a key
    other than [__proto__]: the prototype stays, the key is absent after a
    [null] and holds a value other than [null] after anything else, and no
    other key changes. *)
Lemma deepMerge_step (result : object) (k : string) (v : jvalue) :
  k <> protoKey ->
  exists result',
    match v with
    | JNull => remove result [] k
    | JObj _ =>
        match get result [] k with
        | Some (VObj tprops) =>
            let merged := JsObject.deepMerge tprops v in
            set result [] k (VObj (fst merged)) (snd merged)
        | _ => set result [] k (forget v) []
        end
    | _ => set result [] k (forget v) []
    end = (result', []) /\
    (forall k', k' <> k -> result' !! k' = result !! k') /\
    (v = JNull -> result' !! k = None) /\
    (v <> JNull -> exists w, result' !! k = Some w /\ w <> VNull).
Proof.
  intros Hk.
  assert (Hset : forall w vchain,
            w <> VNull -> v <> JNull ->
            exists result',
              set result [] k w vchain = (result', []) /\
              (forall k', k' <> k -> result' !! k' = result !! k') /\
              (v = JNull -> result' !! k = None) /\
              (v <> JNull -> exists w, result' !! k = Some w /\ w <> VNull)).
  { intros w vchain Hw Hv. exists (<[k := w]> result).
    split; [by apply set_own_key|].
    split; [intros k' Hne; by rewrite lookup_insert_ne|].
    split; [done|]. intros _. exists w. by rewrite lookup_insert_eq. }
  destruct v as [|b|n|s|elems|es]; try (by apply Hset).
  - exists (delete k result). split; [done|].
    split; [intros k' Hne; by rewrite lookup_delete_ne|].
    split; [intros _; by rewrite lookup_delete_eq|done].
  - destruct (get result [] k) as [[| | | | |tprops]|]; by apply Hset.
Qed.

Lemma forget_null (v : jvalue) : forget v = VNull <-> v = JNull.
Proof. by destruct v. Qed.

(** The loop over a list of entries with distinct keys, none of them
    [__proto__]. *)
Lemma deepMerge_loop_keys (entries : list (string * jvalue)) :
  NoDup (fst <$> entries) ->
  protoKey ∉ fst <$> entries ->
  forall target,
  exists result,
    JsObject.deepMerge target (JObj entries) = (result, []) /\
    forall key,
      match document entries !! key with
      | None => result !! key = target !! key
      | Some VNull => result !! key = None
      | Some _ => exists w, result !! key = Some w /\ w <> VNull
      end.
Proof.
  cbn [JsObject.deepMerge].
  induction entries as [|[k v] rest IH]; intros Hnd Hproto target.
  { exists target. split; [done|]. intros key. unfold document. simpl.
    by rewrite lookup_empty. }
  rewrite fmap_cons in Hnd, Hproto. cbn [fst] in Hnd, Hproto.
  apply NoDup_cons in Hnd as [Hk Hnd].
  apply not_elem_of_cons in Hproto as [Hkp Hproto].
  destruct (deepMerge_step target k v ltac:(done))
    as (r1 & Hstep & Hother & Hnull & Hvalue).
  cbn [fold_left].
  match goal with
  | |- context [fold_left _ rest ?first] =>
      replace first with (r1, @nil value) by (symmetry; exact Hstep)
  end.
  destruct (IH Hnd Hproto r1) as (result & Hloop & Hkeys).
  exists result. split; [done|]. intros key. specialize (Hkeys key).
  unfold document in *. rewrite fmap_cons. cbn [fst snd].
  rewrite list_to_map_cons.
  destruct (decide (key = k)) as [->|Hne].
  - rewrite lookup_insert_eq.
    rewrite (not_elem_of_list_to_map_1 _ k) in Hkeys
      by (by rewrite <- list_fmap_compose).
    rewrite Hkeys.
    destruct v as [|b|n|s|elems|es]; [by apply Hnull|..];
      (destruct Hvalue as (w & Hw & Hwn); [done|by exists w]).
  - rewrite lookup_insert_ne by done.
    destruct (list_to_map _ !! key) as [x|] eqn:Hx; [done|].
    by rewrite Hkeys, Hother.
Qed.

(** X1. Which keys a merge leaves, for a patch that has no key
    [__proto__] of its own (its nested mappings may have one): a key is
    present in the result exactly when [source] lacks it and [target] holds
    it, or [source] holds a value other than [null] at it.  The result holds
    [null] at a key only when [target] already did and [source] does not
    mention the key: a patch never stores [null] at the top level. *)
Theorem deepMerge_keys (target : object) (entries : list (string * jvalue))
    (key : string) :
  NoDup (fst <$> entries) ->
  protoKey ∉ fst <$> entries ->
  let result := fst (JsObject.deepMerge target (JObj entries)) in
  let source := document entries in
  (is_Some (result !! key) <->
     (source !! key = None /\ is_Some (target !! key)) \/
     (exists v, source !! key = Some v /\ v <> VNull)) /\
  (result !! key = Some VNull <->
     source !! key = None /\ target !! key = Some VNull).
Proof.
  intros Hnd Hproto result source. subst result source.
  destruct (deepMerge_loop_keys entries Hnd Hproto target)
    as (result & -> & Hkeys).
  specialize (Hkeys key). cbn [fst].
  destruct (document entries !! key) as [v|] eqn:Hs.
  - assert (Hv : v = VNull /\ result !! key = None \/
                 v <> VNull /\
                 exists w, result !! key = Some w /\ w <> VNull).
    { destruct v; try (by right); by left. }
    destruct Hv as [[-> ->]|(Hv & w & -> & Hw)]; split.
    + split; [by intros [? ?]|]. intros [[? _]|(v & [= <-] & Hv)]; done.
    + split; [done|by intros [? _]].
    + split; [|by eexists]. intros _. right. by exists v.
    + split; [by intros [= ->]|by intros [? _]].
  - rewrite Hkeys. split.
    + split; [by left|]. by intros [[_ ?]|(v & ? & _)].
    + split; [done|by intros [_ ?]].
Qed.

Lemma deepMerge_keys_witness :
  (is_Some (fst (JsObject.deepMerge Samples.a1 (JObj [("a", JNull)])) !! "a")
     <->
     (document [("a", JNull)] !! "a" = None /\ is_Some (Samples.a1 !! "a")) \/
     (exists v, document [("a", JNull)] !! "a" = Some v /\ v <> VNull)) /\
  (fst (JsObject.deepMerge Samples.a1 (JObj [("a", JNull)])) !! "a"
     = Some VNull <->
     document [("a", JNull)] !! "a" = None /\ Samples.a1 !! "a" = Some VNull).
Proof.
  apply (deepMerge_keys Samples.a1 [("a", JNull)] "a").
  - repeat constructor. by intros ?%elem_of_nil.
  - intros [?|?%elem_of_nil]%elem_of_cons; done.
Defined.

End PrototypeFacts.

(** ** The relay *)

Section RelayFacts.

Import Relay.

Implicit Types (st : state) (conns : list string) (c sender : string).

Lemma broadcast_all conns msg :
  broadcast conns msg [] = (fun conn => (conn, msg)) <$> conns.
Proof.
  unfold broadcast. f_equal.
  induction conns as [|x l IH]; [done|].
  rewrite filter_cons_True; [by rewrite IH|]. apply not_elem_of_nil.
Qed.

Lemma broadcast_except conns msg sender :
  broadcast conns msg [sender] =
  (fun conn => (conn, msg)) <$> filter (fun conn => conn ≠ sender) conns.
Proof.
  unfold broadcast. f_equal.
  apply list_filter_iff. intros x. rewrite list_elem_of_singleton. done.
Qed.

Lemma receivedBy_fmap conn msg (l : list string) :
  receivedBy conn ((fun c => (c, msg)) <$> l) =
  replicate (length (filter (fun c => c = conn) l)) msg.
Proof.
  unfold receivedBy. induction l as [|x l IH]; [done|].
  rewrite fmap_cons. destruct (decide (x = conn)) as [->|Hne].
  - rewrite (filter_cons_True (fun c => c = conn)) by done.
    rewrite filter_cons_True by done.
    rewrite fmap_cons. cbn [length replicate snd]. f_equal. exact IH.
  - rewrite (filter_cons_False (fun c => c = conn)) by done.
    rewrite filter_cons_False by done. done.
Qed.

Lemma receivedBy_excluded conn msg (l : list string) :
  receivedBy conn
    ((fun c => (c, msg)) <$> filter (fun c => c ≠ conn) l) = [].
Proof.
  rewrite receivedBy_fmap.
  replace (filter (fun c => c = conn) (filter (fun c => c ≠ conn) l))
    with (@nil string); [done|].
  symmetry. induction l as [|x l IH]; [done|].
  destruct (decide (x = conn)) as [->|Hne].
  - by rewrite (filter_cons_False (fun c => c ≠ conn)) by tauto.
  - rewrite (filter_cons_True (fun c => c ≠ conn)) by done.
    by rewrite filter_cons_False by done.
Qed.

(** The handlers keep one presence entry per registered peer. *)
Lemma reachable_presence_dom st :
  reachable st -> forall c, presence st !! c = None <-> peers st !! c = None.
Proof.
  induction 1 as [|conns i st Hst IH]; intros c.
  - simpl. by rewrite !lookup_empty.
  - destruct i as [conn ctx|[msg|] sender|conn]; simpl.
    + rewrite !lookup_insert. case_decide; [done|apply IH].
    + unfold onMessage.
      destruct (peers st !! sender) as [info|] eqn:Hp; [|apply IH].
      destruct msg; simpl; try apply IH.
      * rewrite lookup_insert. case_decide as Hc; [|apply IH].
        subst. rewrite Hp. done.
      * destruct (getConnection conns targetClientId); apply IH.
    + apply IH.
    + unfold onClose. destruct (peers st !! conn) eqn:Hp; [|apply IH].
      simpl. rewrite !lookup_delete. case_decide; [done|apply IH].
Qed.

(** Connection ["a"] of the sample room sends the presence patch [{x: 1}]:
    its entry becomes [{x: 1}] and both connections are told. *)
Example update_presence_sample :
  onMessage Samples.conns (Some (UpdatePresence Samples.x1)) "a" Samples.room
  = ({| peers := peers Samples.room;
        presence := <["a" := Samples.x1]> (<["b" := ∅]> ∅);
        roomState := ∅ |},
     [("a", PresenceUpdated "a" Samples.x1);
      ("b", PresenceUpdated "a" Samples.x1)]).
Proof. reflexivity. Qed.

(** A connection ["guest42"] without query metadata joins the sample room:
    it is registered under a synthesized name and avatar, and is the only
    one to receive [init]. *)
Example connect_sample :
  let result :=
    onConnect ["a"; "b"; "guest42"] "guest42" Samples.noQuery Samples.room in
  peers (fst result) !! "guest42"
    = Some {| username := "Guest-gues";
              avatarUrl :=
                "https://api.dicebear.com/7.x/pixel-art/svg?seed=guest42" |} /\
  presence (fst result) !! "guest42" = Some ∅ /\
  fst <$> snd result = ["guest42"; "a"; "b"; "a"; "b"].
Proof. repeat split. Qed.

End RelayFacts.

Section RelayState.

Import Relay.

Implicit Types (st : state) (conns : list string) (c sender : string).

(** *** Unregistered senders *)

(** C9. A frame whose sender has no entry in the peer registry leaves
    [roomState], [presence] and the registry as they are and sends nothing,
    whatever the frame holds (also when it does not parse); closing a
    connection that has no entry changes nothing and broadcasts nothing. *)
Theorem unregistered_sender_ignored conns message sender st :
  peers st !! sender = None ->
  onMessage conns message sender st = (st, []) /\
  onClose conns sender st = (st, []).
Proof.
  intros Hnone. unfold onMessage, onClose. rewrite Hnone.
  by destruct message.
Qed.

Lemma unregistered_sender_ignored_witness :
  onMessage Samples.conns (Some (UpdatePresence Samples.x1)) "z" Samples.room
    = (Samples.room, []) /\
  onClose Samples.conns "z" Samples.room = (Samples.room, []).
Proof.
  apply (unregistered_sender_ignored Samples.conns
           (Some (UpdatePresence Samples.x1)) "z" Samples.room).
  reflexivity.
Defined.

(** *** Connect, then close *)

Lemma onClose_onConnect conns1 conns2 c ctx st :
  peers st !! c = None ->
  presence st !! c = None ->
  fst (onClose conns2 c (fst (onConnect conns1 c ctx st))) = st.
Proof.
  intros Hp Hq. unfold onClose. simpl. rewrite lookup_insert_eq. simpl.
  rewrite !delete_insert_eq, !delete_id by done. by destruct st.
Qed.

(** In a state the server can reach, having no [PeerInfo] is all that
    freshness takes: the presence entry is absent as well. *)
Lemma onClose_onConnect_reachable conns1 conns2 c ctx st :
  reachable st ->
  peers st !! c = None ->
  fst (onClose conns2 c (fst (onConnect conns1 c ctx st))) = st.
Proof.
  intros Hr Hp. apply onClose_onConnect; [done|].
  by apply (reachable_presence_dom st Hr).
Qed.

(** X23. For a connection id other than [__proto__] with no entry yet,
    [onConnect] creates exactly a [PeerInfo] and an empty presence entry
    under that id (the assignment creates an own property and leaves the
    prototype of [this.presence] alone), leaving every other id alone, and
    a following [onClose]
    removes exactly these two: the peer registry and the presence map are
    back to what they were before the connect (and the room state never
    moved). *)
Theorem connect_close_restores conns1 conns2 c ctx st :
  c <> protoKey ->
  peers st !! c = None ->
  presence st !! c = None ->
  let st1 := fst (onConnect conns1 c ctx st) in
  let st2 := fst (onClose conns2 c st1) in
  (exists info, peers st1 = <[c := info]> (peers st)) /\
  presence st1 = <[c := ∅]> (presence st) /\
  JsObject.set (VObj <$> presence st) [] c (VObj ∅) []
    = (VObj <$> presence st1, []) /\
  (forall d, d <> c ->
     peers st1 !! d = peers st !! d /\ presence st1 !! d = presence st !! d) /\
  peers st2 = peers st /\
  presence st2 = presence st /\
  st2 = st.
Proof.
  intros Hc Hp Hq st1 st2.
  assert (Hst : st2 = st) by (by apply onClose_onConnect).
  split; [eexists; reflexivity|]. split; [reflexivity|].
  split.
  { subst st1. simpl. by rewrite set_own_key, fmap_insert. }
  split.
  { intros d Hne. subst st1. simpl. by rewrite !lookup_insert_ne. }
  by rewrite Hst.
Qed.

Lemma connect_close_restores_witness :
  fst (onClose Samples.conns "z"
         (fst (onConnect Samples.conns "z" Samples.noQuery Samples.room)))
  = Samples.room.
Proof.
  apply (connect_close_restores Samples.conns Samples.conns "z"
           Samples.noQuery Samples.room); done.
Defined.

(** C8. For the connection id [__proto__] the two dictionaries that are
    plain objects get no entry.  [this.presence[conn.id] = {}] of
    [onConnect] finds no own property of that name and runs the setter of
    [Object.prototype]: the empty object becomes the prototype of
    [this.presence], whose own properties stay as they were, and
    [peersObj[id] = info] does the same to the snapshot of the peers.  The
    [init] frame, which lists own properties, therefore names neither the
    new peer nor its presence entry.  [delete this.presence[conn.id]] of
    [onClose] then finds no own property to remove, and the prototype
    installed at connect stays. *)
Theorem connect_close_at_proto_id :
  (forall own : object,
     own !! protoKey = None ->
     let connected := JsObject.set own [] protoKey (VObj ∅) [] in
     let closed :=
       JsObject.remove (fst connected) (snd connected) protoKey in
     fst connected = own /\
     snd connected = [VObj ∅] /\
     JsObject.get (fst connected) (snd connected) protoKey = Some (VObj ∅) /\
     closed = connected) /\
  (forall info : object,
     JsObject.set ∅ [] protoKey (VObj info) [] = (∅, [VObj info])) /\
  JsObject.set (VObj <$> presence Samples.room) [] protoKey (VObj ∅) []
    = (VObj <$> presence Samples.room, [VObj ∅]) /\
  JsObject.set (VObj <$> presence Samples.room) [] "z" (VObj ∅) []
    = (<["z" := VObj ∅]> (VObj <$> presence Samples.room), []).
Proof.
  split; [|split; [|split]].
  - intros own Hown connected closed. subst closed connected.
    unfold JsObject.set. rewrite decide_True by done. cbn [fst snd].
    split; [done|]. split; [done|]. split.
    + unfold JsObject.get. rewrite Hown. reflexivity.
    + unfold JsObject.remove. by rewrite delete_id.
  - intros info. unfold JsObject.set. by rewrite decide_True.
  - by vm_compute.
  - by vm_compute.
Qed.

(** *** Ownership of presence entries *)

(** C4. Whatever the server handles, the presence entry of [c] either stays
    as it is, or [c] connects and it becomes the empty mapping, or a
    registered [c] itself sends [update-presence] and it becomes the merge of
    its old value (empty if absent) with the payload, or [c] closes and it is
    gone.  In particular a frame from another connection never changes it. *)
Theorem presence_entry_ownership conns st c :
  (forall i,
     let st' := fst (step conns i st) in
     presence st' !! c = presence st !! c \/
     (exists ctx, i = Connect c ctx /\ presence st' !! c = Some ∅) \/
     (exists p, i = Message (Some (UpdatePresence p)) c /\
        is_Some (peers st !! c) /\
        presence st' !! c =
          Some (deepMerge (default ∅ (presence st !! c)) p)) \/
     (i = Close c /\ is_Some (peers st !! c) /\ presence st' !! c = None)) /\
  (forall message sender,
     sender <> c ->
     presence (fst (onMessage conns message sender st)) !! c
       = presence st !! c).
Proof.
  split.
  - intros [conn ctx|[msg|] sender|conn] st'; subst st'; simpl.
    + destruct (decide (conn = c)) as [->|Hne].
      * right; left. exists ctx. by rewrite lookup_insert_eq.
      * left. by rewrite lookup_insert_ne.
    + unfold onMessage.
      destruct (peers st !! sender) as [info|] eqn:Hp; [|by left].
      destruct msg as [p|rs|target upd|ev|]; simpl; try by left.
      * destruct (decide (sender = c)) as [->|Hne].
        -- right; right; left. exists p. rewrite lookup_insert_eq.
           split; [done|]. split; [by eexists|done].
        -- left. by rewrite lookup_insert_ne.
      * destruct (getConnection conns target); by left.
    + by left.
    + unfold onClose.
      destruct (peers st !! conn) as [info|] eqn:Hp; [|by left]. simpl.
      destruct (decide (conn = c)) as [->|Hne].
      * right; right; right. rewrite lookup_delete_eq.
        split; [done|]. split; [by eexists|done].
      * left. by rewrite lookup_delete_ne.
  - intros [msg|] sender Hne; [|done]. unfold onMessage.
    destruct (peers st !! sender) as [info|]; [|done].
    destruct msg as [p|rs|target upd|ev|]; simpl; try done.
    + by rewrite lookup_insert_ne.
    + by destruct (getConnection conns target).
Qed.

Lemma presence_entry_ownership_witness :
  presence (fst (onMessage Samples.conns (Some (UpdatePresence Samples.x1))
                   "b" Samples.room)) !! "a"
  = presence Samples.room !! "a".
Proof.
  apply (proj2 (presence_entry_ownership Samples.conns Samples.room "a")).
  discriminate.
Defined.

End RelayState.

Section RelayPresenceOrder.

Import Relay.

Implicit Types (st : state) (c : string).

Lemma run_cons_fst conns i rest st :
  fst (run ((conns, i) :: rest) st) = fst (run rest (fst (step conns i st))).
Proof.
  simpl. destruct (step conns i st) as [st1 out1]. simpl.
  by destruct (run rest st1).
Qed.






End RelayPresenceOrder.

Section RelayEvents.

Import Relay.

Implicit Types (st : state) (conns : list string) (sender : string).

(** C6. A [broadcast-event] frame of a registered sender never changes the
    state.  With [echo: false] the resulting [event] frame goes to every
    connection of the room but the sender, which therefore receives nothing;
    with [echo: true], or no [echo] field, it goes to every connection of the
    room, the sender included. *)
Theorem broadcast_event_echo conns event sender info st :
  peers st !! sender = Some info ->
  let result := onMessage conns (Some (BroadcastEvent event)) sender st in
  let frame := Event (eventData event sender info) in
  fst result = st /\
  (event !! "echo" = Some (VBool false) ->
     snd result
       = (fun conn => (conn, frame)) <$> filter (fun conn => conn ≠ sender) conns /\
     receivedBy sender (snd result) = []) /\
  (event !! "echo" = Some (VBool true) \/ event !! "echo" = None ->
     snd result = (fun conn => (conn, frame)) <$> conns /\
     (sender ∈ conns -> frame ∈ receivedBy sender (snd result))).
Proof.
  intros Hp result frame. subst result. unfold onMessage. rewrite Hp.
  split; [done|]. split.
  - intros He. unfold eventEcho. rewrite He. simpl.
    rewrite broadcast_except. split; [done|]. apply receivedBy_excluded.
  - intros He.
    assert (Ht : truthy (eventEcho event) = true).
    { unfold eventEcho. by destruct He as [-> | ->]. }
    rewrite Ht. simpl. rewrite broadcast_all. split; [done|].
    intros Hin. rewrite receivedBy_fmap.
    apply elem_of_replicate. split; [done|].
    assert (Hf : sender ∈ filter (fun c => c = sender) conns)
      by (by apply list_elem_of_filter).
    destruct (filter (fun c => c = sender) conns);
      [by apply elem_of_nil in Hf | done].
Qed.

Lemma broadcast_event_echo_witness :
  (snd (onMessage Samples.conns (Some (BroadcastEvent Samples.quietEvent))
          "a" Samples.room)
   = [("b", Event (eventData Samples.quietEvent "a" Samples.alice))]) /\
  (snd (onMessage Samples.conns (Some (BroadcastEvent Samples.plainEvent))
          "a" Samples.room)
   = [("a", Event (eventData Samples.plainEvent "a" Samples.alice));
      ("b", Event (eventData Samples.plainEvent "a" Samples.alice))]).
Proof.
  split.
  - apply (proj1 (proj1 (proj2 (broadcast_event_echo Samples.conns
             Samples.quietEvent "a" Samples.alice Samples.room eq_refl))
             eq_refl)).
  - apply (proj1 (proj2 (proj2 (broadcast_event_echo Samples.conns
             Samples.plainEvent "a" Samples.alice Samples.room eq_refl))
             (or_intror eq_refl))).
Defined.

(** What the payload holds under [clientId] and [username]: the fields of the
    event when it has them, the sender's otherwise. *)
Lemma eventData_clientId event sender info :
  eventData event sender info !! "clientId"
  = Some (default (VStr sender) (event !! "clientId")).
Proof.
  unfold eventData, spread, eventRest.
  rewrite lookup_union, !lookup_delete_ne by done.
  destruct (event !! "clientId") as [v|]; simpl.
  - by rewrite union_Some_l.
  - rewrite left_id by apply _.
    rewrite lookup_insert_ne by done. by rewrite lookup_insert_eq.
Qed.

Lemma eventData_username event sender info :
  eventData event sender info !! "username"
  = Some (default (VStr (username info)) (event !! "username")).
Proof.
  unfold eventData, spread, eventRest.
  rewrite lookup_union, !lookup_delete_ne by done.
  destruct (event !! "username") as [v|]; simpl.
  - by rewrite union_Some_l.
  - rewrite left_id by apply _. by rewrite lookup_insert_eq.
Qed.

(** Every other field but [echo] is the event's. *)
Lemma eventData_other event sender info key :
  key <> "clientId" -> key <> "username" -> key <> "echo" ->
  eventData event sender info !! key = event !! key.
Proof.
  intros H1 H2 H3. unfold eventData, spread, eventRest, setField.
  rewrite lookup_union.
  destruct (decide (key = "type")) as [->|Ht].
  - rewrite lookup_delete_eq, left_id by apply _.
    rewrite !lookup_insert_ne by done.
    destruct (event !! "type") as [t|]; [by rewrite lookup_insert_eq|done].
  - rewrite !lookup_delete_ne by done.
    rewrite !lookup_insert_ne by done.
    destruct (event !! "type") as [t|].
    + rewrite lookup_insert_ne, lookup_empty by done.
      by rewrite right_id by apply _.
    + rewrite lookup_empty. by rewrite right_id by apply _.
Qed.

Lemma eventData_echo event sender info :
  eventData event sender info !! "echo" = None.
Proof.
  unfold eventData, spread, eventRest, setField.
  rewrite lookup_union, lookup_delete_ne, lookup_delete_eq by done.
  rewrite left_id by apply _. rewrite !lookup_insert_ne by done.
  destruct (event !! "type"); [by rewrite lookup_insert_ne|done].
Qed.

(** C1. The payload the server builds for connection ["a"] (registered as
    Alice) from an event that carries [clientId: "b"] and [username: "Bob"]
    keeps these two fields of the event: the frame every connection receives
    names ["b"] and Bob, not the sending connection. *)
Theorem broadcast_event_forged_origin :
  let out := snd (onMessage Samples.conns
                    (Some (BroadcastEvent Samples.forgedEvent)) "a"
                    Samples.room) in
  out = [("a", Event Samples.forgedEvent); ("b", Event Samples.forgedEvent)] /\
  Samples.forgedEvent !! "clientId" = Some (VStr "b") /\
  Samples.forgedEvent !! "username" = Some (VStr "Bob") /\
  Relay.peers Samples.room !! "a" = Some Samples.alice.
Proof. repeat split. Qed.

End RelayEvents.

(** ** The replica *)

Section ReplicaFacts.

Import Replica.

Implicit Types (st : state) (msg : ServerToClientMessage).

(** *** Frames that arrive before [init] *)

(** C3, as stated, fails.  While [initialize()] is pending, a
    [presence-updated] frame is handled like any other: the presence mirror
    changes and the presence subscriber is called.  And an [init] frame that
    arrives after the first one overwrites the mirror again. *)
Lemma frame_before_init_is_handled :
  let msg := PresenceUpdated "b" Samples.x1 in
  let result := onSocketMessage (Some msg) Samples.waiting in
  initialized Samples.waiting = Pending /\
  isInit msg = false /\
  _presence (fst result) = <["b" := Samples.x1]> ∅ /\
  mirror (fst result) <> mirror Samples.waiting /\
  snd result = [PresenceCallback 7 (<["b" := Samples.x1]> ∅)] /\
  let first := fst (onSocketMessage (Some (Init "a" ∅ ∅ ∅)) Samples.waiting) in
  let second := fst (onSocketMessage (Some (Init "c" Samples.x2 ∅ ∅)) first) in
  initialized first = Resolved /\ mirror second <> mirror first.
Proof.
  repeat split; try reflexivity; vm_compute; discriminate.
Qed.

(** C3, amended.  The listener installed by [initialize()] has no notion of
    "before [init]": whatever [initialize()] is waiting for, it
    - drops a frame that does not parse;
    - on [presence-updated] stores the entry under the frame's [clientId]
      and calls every presence subscriber with the new presence mirror;
    - on [room-state-updated] replaces the room state with the frame's and
      calls every room-state subscriber with it;
    - on [presence-update-request] changes nothing and calls every
      subscriber of such requests with the update and its origin;
    - on [peer-joined] stores the [PeerInfo] under the frame's [clientId]
      and hands a ["connected"] event to the generic handler, if one is set;
    - on [peer-left] removes the [PeerInfo] and the presence entry of the
      frame's [clientId], hands a ["disconnected"] event with the username
      that was stored (the empty string if none was) to the generic handler,
      and then calls every presence subscriber with the new presence mirror;
    - on [event] changes nothing and hands the payload to the generic
      handler;
    - on a frame of any other kind does nothing;
    - on every [init], not only the first, overwrites [clientId],
      [roomState], [presence] and [peers] with the frame's fields, calls no
      callback, clears the timer and completes [initialize()] if it is still
      pending.
    No frame changes the socket, the subscriptions or the generic handler,
    and only [init] settles [initialize()].  What is said of entries is for
    a [clientId] other than [__proto__]. *)
Theorem socket_message_dispatch st :
  onSocketMessage None st = (st, []) /\
  (forall frame,
     let st' := fst (onSocketMessage frame st) in
     socket st' = socket st /\
     presenceSubscribers st' = presenceSubscribers st /\
     roomStateSubscribers st' = roomStateSubscribers st /\
     presenceUpdateRequestSubscribers st'
       = presenceUpdateRequestSubscribers st /\
     onmessage st' = onmessage st) /\
  (forall msg,
     isInit msg = false ->
     let st' := fst (onSocketMessage (Some msg) st) in
     initialized st' = initialized st /\ timeoutArmed st' = timeoutArmed st) /\
  (forall clientId presence,
     clientId <> protoKey ->
     let result :=
       onSocketMessage (Some (PresenceUpdated clientId presence)) st in
     mirror (fst result)
       = (<[clientId := presence]> (_presence st),
          _roomState st, _peers st, _clientId st) /\
     snd result
       = (fun cb => PresenceCallback cb
                      (<[clientId := presence]> (_presence st)))
           <$> presenceSubscribers st) /\
  (forall roomState,
     let result := onSocketMessage (Some (RoomStateUpdated roomState)) st in
     mirror (fst result)
       = (_presence st, roomState, _peers st, _clientId st) /\
     snd result
       = (fun cb => RoomStateCallback cb roomState)
           <$> roomStateSubscribers st) /\
  (forall update fromClientId,
     onSocketMessage (Some (PresenceUpdateRequest update fromClientId)) st
       = (st, (fun cb => PresenceUpdateRequestCallback cb update fromClientId)
                <$> presenceUpdateRequestSubscribers st)) /\
  (forall clientId username avatarUrl,
     clientId <> protoKey ->
     let result :=
       onSocketMessage (Some (PeerJoined clientId username avatarUrl)) st in
     mirror (fst result)
       = (_presence st, _roomState st,
          <[clientId := {| username := username; avatarUrl := avatarUrl |}]>
            (_peers st),
          _clientId st) /\
     snd result
       = match onmessage st with
         | Some handler =>
             [OnMessage handler
                (<["username" := VStr username]>
                   (<["clientId" := VStr clientId]>
                      (<["type" := VStr "connected"]> ∅)))]
         | None => []
         end) /\
  (forall clientId,
     clientId <> protoKey ->
     let result := onSocketMessage (Some (PeerLeft clientId)) st in
     let name :=
       match _peers st !! clientId with
       | Some info => username info
       | None => ""
       end in
     mirror (fst result)
       = (delete clientId (_presence st), _roomState st,
          delete clientId (_peers st), _clientId st) /\
     snd result
       = (match onmessage st with
          | Some handler =>
              [OnMessage handler
                 (<["username" := VStr name]>
                    (<["clientId" := VStr clientId]>
                       (<["type" := VStr "disconnected"]> ∅)))]
          | None => []
          end
          ++ ((fun cb => PresenceCallback cb (delete clientId (_presence st)))
                <$> presenceSubscribers st))%list) /\
  (forall data,
     onSocketMessage (Some (Event data)) st
       = (st, match onmessage st with
              | Some handler => [OnMessage handler data]
              | None => []
              end)) /\
  onSocketMessage (Some UnknownServerMessage) st = (st, []) /\
  (forall clientId roomState presence peers,
     let result :=
       onSocketMessage (Some (Init clientId roomState presence peers)) st in
     mirror (fst result) = (presence, roomState, peers, clientId) /\
     snd result = [] /\
     timeoutArmed (fst result) = false /\
     initialized (fst result)
       = match initialized st with
         | Pending => Resolved
         | settled => settled
         end).
Proof.
  split; [reflexivity|]. split.
  { intros [[]|]; repeat split. }
  split.
  { intros msg Hmsg. by destruct msg. }
  split; [by intros clientId presence _|].
  split; [done|]. split; [done|].
  split.
  { intros clientId username avatarUrl _. split; [done|].
    simpl. unfold fireOnmessage. simpl. by destruct (onmessage st). }
  split.
  { intros clientId _. split; [done|].
    simpl. unfold fireOnmessage. simpl.
    by destruct (onmessage st), (_peers st !! clientId). }
  split.
  { intros data. simpl. unfold fireOnmessage. by destruct (onmessage st). }
  split; [done|].
  intros clientId roomState presence peers. repeat split.
  simpl. by destruct (initialized st).
Qed.

Lemma socket_message_dispatch_witness :
  (let result :=
     onSocketMessage (Some (PresenceUpdated "b" Samples.x1)) Samples.waiting in
   mirror (fst result)
     = (<["b" := Samples.x1]> (_presence Samples.waiting),
        _roomState Samples.waiting, _peers Samples.waiting,
        _clientId Samples.waiting) /\
   snd result
     = (fun cb => PresenceCallback cb
                    (<["b" := Samples.x1]> (_presence Samples.waiting)))
         <$> presenceSubscribers Samples.waiting) /\
  initialized (fst (onSocketMessage (Some (PresenceUpdated "b" Samples.x1))
                      Samples.waiting))
    = Pending.
Proof.
  destruct (socket_message_dispatch Samples.waiting)
    as (_ & _ & Hpending & Hpresence & _).
  split.
  - by apply (Hpresence "b" Samples.x1).
  - by apply (Hpending (PresenceUpdated "b" Samples.x1)).
Defined.

(** *** Sending on a socket that is not open *)



End ReplicaFacts.

(** ** The merge engine over a store *)

Section StoreFrame.

Import Store.

Implicit Types (h : heap) (l : loc) (key : string).

Lemma mergeLoop_nil rec source result h :
  mergeLoop rec source result h [] = Some h.
Proof. reflexivity. Qed.

Lemma mergeLoop_cons rec source result h key ks :
  mergeLoop rec source result h (key :: ks) =
  match mergeKey rec source result h key with
  | Some h1 => mergeLoop rec source result h1 ks
  | None => None
  end.
Proof.
  unfold mergeLoop. simpl.
  destruct (mergeKey rec source result h key); [done|].
  induction ks as [|k ks IH]; [done|]. simpl. exact IH.
Qed.

(** Writing to a cell the base store does not have keeps the base store. *)
Lemma setProp_base hb h l key v :
  hb !! l = None -> hb ⊆ h -> hb ⊆ setProp h l key v.
Proof.
  intros Hl Hsub. unfold setProp.
  destruct (h !! l) as [[props|elems]|]; try done.
  by apply insert_subseteq_r.
Qed.

Lemma deleteProp_base hb h l key :
  hb !! l = None -> hb ⊆ h -> hb ⊆ deleteProp h l key.
Proof.
  intros Hl Hsub. unfold deleteProp.
  destruct (h !! l) as [[props|elems]|]; try done.
  by apply insert_subseteq_r.
Qed.

Lemma setProp_allocated h l l' key v :
  is_Some (h !! l') -> is_Some (setProp h l key v !! l').
Proof.
  intros Hl'. unfold setProp.
  destruct (h !! l) as [[props|elems]|] eqn:Hl; try done.
  destruct (decide (l = l')) as [->|Hne].
  - rewrite lookup_insert_eq. by eexists.
  - by rewrite lookup_insert_ne.
Qed.

Lemma deleteProp_allocated h l l' key :
  is_Some (h !! l') -> is_Some (deleteProp h l key !! l').
Proof.
  intros Hl'. unfold deleteProp.
  destruct (h !! l) as [[props|elems]|] eqn:Hl; try done.
  destruct (decide (l = l')) as [->|Hne].
  - rewrite lookup_insert_eq. by eexists.
  - by rewrite lookup_insert_ne.
Qed.

Lemma subseteq_allocated h h' l :
  h ⊆ h' -> is_Some (h !! l) -> is_Some (h' !! l).
Proof.
  intros Hsub [c Hc]. exists c. by eapply lookup_weaken.
Qed.

Lemma mergeKey_frame rec source result hb h key h1 :
  framed rec ->
  hb !! result = None -> hb ⊆ h -> is_Some (h !! result) ->
  mergeKey rec source result h key = Some h1 ->
  hb ⊆ h1 /\ is_Some (h1 !! result).
Proof.
  intros Hrec Hres Hsub Halloc. unfold mergeKey.
  assert (Hstore : forall sv,
            Some (setProp h result key sv) = Some h1 ->
            hb ⊆ h1 /\ is_Some (h1 !! result)).
  { intros sv [= <-]. split; [by apply setProp_base|by apply setProp_allocated]. }
  destruct (getProp h source key) as [| | | | |sl0] eqn:Hsv; try apply Hstore.
  - intros [= <-].
    split; [by apply deleteProp_base|by apply deleteProp_allocated].
  - destruct (plainObject h (HRef sl0)) as [sl|]; [|apply Hstore].
    destruct (plainObject h (getProp h result key)) as [tl|]; [|apply Hstore].
    destruct (rec h tl sl) as [[h2 merged]|] eqn:Hcall; [|done].
    intros [= <-]. destruct (Hrec _ _ _ _ _ Hcall) as (Hsub2 & _ & _).
    split.
    + apply setProp_base; [done|]. by etrans.
    + apply setProp_allocated. by eapply subseteq_allocated.
Qed.

Lemma mergeLoop_frame rec source result hb ks :
  framed rec ->
  hb !! result = None ->
  forall h h',
    hb ⊆ h -> is_Some (h !! result) ->
    mergeLoop rec source result h ks = Some h' ->
    hb ⊆ h' /\ is_Some (h' !! result).
Proof.
  intros Hrec Hres. induction ks as [|key ks IH]; intros h h' Hsub Halloc.
  - rewrite mergeLoop_nil. by intros [= <-].
  - rewrite mergeLoop_cons.
    destruct (mergeKey rec source result h key) as [h1|] eqn:Hkey; [|done].
    destruct (mergeKey_frame _ _ _ _ _ _ _ Hrec Hres Hsub Halloc Hkey)
      as [Hsub1 Halloc1].
    by apply IH.
Qed.

Lemma fresh_unallocated h : h !! fresh (dom h) = None.
Proof. apply not_elem_of_dom, is_fresh. Qed.

(** Whatever the store, and also when it holds cycles: a call that returns
    has changed no cell that existed before, and its result is a cell that
    did not exist. *)
Lemma deepMerge_framed fuel : framed (deepMerge fuel).
Proof.
  induction fuel as [|fuel IH]; intros h target source h' result; [done|].
  simpl.
  destruct (h !! target) as [[tprops|]|] eqn:Ht; try done.
  destruct (h !! source) as [[sprops|]|] eqn:Hs; try done.
  destruct (mergeLoop _ _ _ _ _) as [h1|] eqn:Hloop; [|done].
  intros [= <- <-].
  pose proof (fresh_unallocated h) as Hfresh.
  destruct (mergeLoop_frame _ _ _ h _ IH Hfresh _ _
              (insert_subseteq _ _ _ Hfresh)
              ltac:(rewrite lookup_insert_eq; by eexists) Hloop)
    as [Hsub Halloc].
  done.
Qed.

End StoreFrame.

Section StoreRepresentation.

Import Store.

Implicit Types (h : heap) (l : loc) (key : string) (v : hvalue) (x : value).

Lemma vsize_elem (elems : list value) (e : value) :
  e ∈ elems -> vsize e < vsize (VArr elems).
Proof.
  intros Hin. simpl. induction Hin as [e l|e e' l _ IH]; simpl; lia.
Qed.

(** A document stays represented when the store grows. *)
Lemma represents_mono h h' v x :
  h ⊆ h' -> represents h v x -> represents h' v x.
Proof.
  intros Hsub. remember (vsize x) as n eqn:Hn.
  revert x Hn v. induction n as [n IH] using lt_wf_ind.
  intros x -> v Hrep.
  destruct Hrep as [| b | n | s | l elems velems Hl Hall | l props vprops Hl Hall].
  - constructor.
  - constructor.
  - constructor.
  - constructor.
  - apply (represents_arr h' l elems); [by eapply lookup_weaken|].
    assert (IH' : forall e w, e ∈ velems -> represents h w e -> represents h' w e).
    { intros e w He Hw.
      exact (IH (vsize e) (vsize_elem _ _ He) e eq_refl w Hw). }
    clear IH Hl. induction Hall as [|w e ws es Hw Hall IHall]; constructor.
    + apply IH'; [by left|done].
    + apply IHall. intros e' w' He'. apply IH'. by right.
  - apply (represents_obj h' l props); [by eapply lookup_weaken|].
    intros key. specialize (Hall key).
    destruct (vprops !! key) as [e|] eqn:He; inversion Hall as [w e' Hw|];
      subst; constructor.
    exact (IH (vsize e) (vsize_lookup _ _ _ He) e eq_refl w Hw).
Qed.

Lemma option_represents_mono h h' (ov : option hvalue) (ox : option value) :
  h ⊆ h' ->
  option_Forall2 (represents h) ov ox -> option_Forall2 (represents h') ov ox.
Proof.
  intros Hsub [w e Hw|]; constructor. by eapply represents_mono.
Qed.

Lemma built_mono h h1 h2 target source result :
  h1 ⊆ h2 -> built h h1 target source result -> built h h2 target source result.
Proof.
  intros Hsub Hb.
  induction Hb using built_mut
    with (P0 := fun tv sv rv => keyBuilt h h2 tv sv rv).
  - econstructor; eauto using lookup_weaken.
  - constructor.
  - constructor.
  - econstructor; eauto.
  - by constructor.
Qed.

Lemma keyBuilt_mono h h1 h2 tv sv rv :
  h1 ⊆ h2 -> keyBuilt h h1 tv sv rv -> keyBuilt h h2 tv sv rv.
Proof.
  intros Hsub [tv'|tv'|tv' sv' tl sl merged Hsl Htl Hb|tv' sv' Hnull Hplain].
  - constructor.
  - constructor.
  - econstructor; eauto using built_mono.
  - by constructor.
Qed.

(** Whether a represented value is a plain object does not change when the
    store grows: the cell it refers to exists already. *)
Lemma represents_plainObject h h' v x :
  h ⊆ h' -> represents h v x -> plainObject h' v = plainObject h v.
Proof.
  intros Hsub Hrep.
  destruct Hrep as [| | | | l elems velems Hl _ | l props vprops Hl _];
    try reflexivity; simpl; by rewrite (lookup_weaken _ _ _ _ Hl Hsub), Hl.
Qed.

Lemma represents_plain_inv h v x l :
  represents h v x -> plainObject h v = Some l ->
  v = HRef l /\ exists vprops, x = VObj vprops.
Proof.
  intros Hrep Hplain.
  destruct Hrep as [| | | | l' elems velems Hl _ | l' props vprops Hl _];
    simpl in Hplain; try done; rewrite Hl in Hplain; [done|].
  injection Hplain as ->. split; [done|by eexists].
Qed.

Lemma represents_object_plain h v vprops :
  represents h v (VObj vprops) -> exists l, plainObject h v = Some l.
Proof.
  intros Hrep. inversion Hrep as [| | | | |l props vp Hl Hall]; subst.
  exists l. simpl. by rewrite Hl.
Qed.

Lemma represents_null_iff h v x :
  represents h v x -> (v = HNull <-> x = VNull).
Proof. intros Hrep. destruct Hrep; split; done. Qed.

(** Two parts of one store, put together, are a part of it, and each is a
    part of the whole. *)
Lemma union_part_l (h1 h2 h3 : heap) :
  h1 ⊆ h3 -> h2 ⊆ h3 -> h1 ∪ h2 ⊆ h3.
Proof. intros H1 H2. by apply map_union_least. Qed.

Lemma union_part_r (h1 h2 h3 : heap) :
  h1 ⊆ h3 -> h2 ⊆ h3 -> h2 ⊆ h1 ∪ h2.
Proof.
  intros H1 H2. apply map_subseteq_spec. intros l c Hl.
  apply lookup_union_Some_raw.
  destruct (h1 !! l) as [c'|] eqn:Hl1; [left|right; done].
  pose proof (lookup_weaken _ _ _ _ Hl1 H1).
  pose proof (lookup_weaken _ _ _ _ Hl H2). congruence.
Qed.

End StoreRepresentation.

Section StoreMerge.

Import Store.

Implicit Types (h : heap) (l : loc) (key : string) (v : hvalue) (x : value).

(** The three ways an iteration goes. *)
Lemma mergeKey_null rec source result h key :
  getProp h source key = HNull ->
  mergeKey rec source result h key = Some (deleteProp h result key).
Proof. intros Hget. unfold mergeKey. by rewrite Hget. Qed.

Lemma mergeKey_merge rec source result h key sv sl tl :
  getProp h source key = sv ->
  plainObject h sv = Some sl ->
  plainObject h (getProp h result key) = Some tl ->
  mergeKey rec source result h key =
  match rec h tl sl with
  | Some (h', merged) => Some (setProp h' result key (HRef merged))
  | None => None
  end.
Proof.
  intros Hget Hsl Htl. unfold mergeKey. rewrite Hget.
  destruct sv; try done. by rewrite Hsl, Htl.
Qed.

Lemma mergeKey_store rec source result h key sv :
  getProp h source key = sv ->
  sv <> HNull ->
  plainObject h sv = None \/ plainObject h (getProp h result key) = None ->
  mergeKey rec source result h key = Some (setProp h result key sv).
Proof.
  intros Hget Hnn Hplain. unfold mergeKey. rewrite Hget.
  destruct sv; try done.
  destruct Hplain as [Hp|Hp]; rewrite Hp; [done|].
  by destruct (plainObject h (HRef l)).
Qed.

Lemma mergeAtKey_stored recur x (tvo : option value) :
  x <> VNull ->
  (forall vprops tprops, x = VObj vprops -> tvo <> Some (VObj tprops)) ->
  mergeAtKey recur (Some x) tvo = Some x.
Proof.
  intros Hnn Hobj. destruct x; try done. simpl.
  destruct tvo as [[]|]; try done. by edestruct Hobj.
Qed.

Lemma handled_other (key k : string) (done : gset string) :
  k ∈ ({[key]} ∪ done : gset string) -> k <> key -> k ∈ done.
Proof.
  intros [Heq%elem_of_singleton|Hd]%elem_of_union Hne; [done|done].
Qed.

Lemma unhandled_other (key k : string) (done : gset string) :
  k ∉ ({[key]} ∪ done : gset string) -> k <> key /\ k ∉ done.
Proof.
  intros Hnot. split.
  - intros ->. apply Hnot, elem_of_union. left. by apply elem_of_singleton.
  - intros Hd. apply Hnot, elem_of_union. by right.
Qed.

Section Loop.

Variables (rec : heap -> loc -> loc -> option (heap * loc)) (n : nat).
Hypothesis Hframed : framed rec.
Hypothesis Hrec : merges rec n.

Variables (hin hall : heap) (target source result : loc).
Variables (tprops sprops : gmap string hvalue) (tv sv : object).
Hypothesis Hin : hin ⊆ hall.
Hypothesis Ht : hin !! target = Some (Obj tprops).
Hypothesis Hs : hin !! source = Some (Obj sprops).
Hypothesis Hrt :
  forall key, option_Forall2 (represents hin) (tprops !! key) (tv !! key).
Hypothesis Hrs :
  forall key, option_Forall2 (represents hin) (sprops !! key) (sv !! key).
Hypothesis Hres : hall !! result = None.
Hypothesis Hsize : vsize (VObj sv) <= S n.

Local Abbreviation inv := (loopInv hin hall result tprops sprops tv sv).

Lemma loopInv_start : inv ∅ (<[result := Obj tprops]> hall).
Proof.
  exists hin, tprops.
  assert (Hinr : hin !! result = None) by (by eapply lookup_weaken_None).
  split; [by apply insert_subseteq|].
  split; [by rewrite lookup_insert_eq|].
  split; [done|].
  split; [by apply insert_subseteq_r|].
  split; [done|].
  split; [by left|].
  split; [|done]. intros key Hkey. by apply elem_of_empty in Hkey.
Qed.

Lemma mergeKey_loopInv done hc key :
  inv done hc -> key ∉ done -> is_Some (sprops !! key) ->
  exists hc', mergeKey rec source result hc key = Some hc' /\
              inv ({[key]} ∪ done) hc'.
Proof.
  intros (hrest & rp & Hall & Hrp & Hin' & Hrest & Hrr & Hfoot & Hdone & Htodo)
         Hkey [svk Hsvk].
  pose proof (Hrs key) as Hk. rewrite Hsvk in Hk.
  inversion Hk as [svk' x Hx Heq1 Heq2|]; subst svk'. symmetry in Heq2.
  assert (Hinc : hin ⊆ hc) by (by etrans).
  assert (Hsrc : hc !! source = Some (Obj sprops)) by (by eapply lookup_weaken).
  assert (Hget : getProp hc source key = svk).
  { unfold getProp. by rewrite Hsrc, Hsvk. }
  assert (Hgetr : getProp hc result key = default HUndefined (tprops !! key)).
  { unfold getProp. by rewrite Hrp, (Htodo key Hkey). }
  assert (Hps : plainObject hc svk = plainObject hin svk)
    by (by eapply represents_plainObject).
  assert (Hpt : plainObject hc (default HUndefined (tprops !! key))
                = plainObject hin (default HUndefined (tprops !! key))).
  { pose proof (Hrt key) as Hkt.
    destruct (tprops !! key) as [tvk|]; [|done].
    inversion Hkt; subst. by eapply represents_plainObject. }
  assert (Hpure : MergeEngine.deepMerge tv sv !! key
                  = mergeAtKey deepMergeV (Some x) (tv !! key)).
  { by rewrite deepMerge_lookup, Heq2. }
  (* The invariant after a write to the result cell that leaves the rest of
     the store alone. *)
  assert (Hwrite : forall rv,
    option_Forall2 (represents hrest) rv (MergeEngine.deepMerge tv sv !! key) ->
    keyBuilt hin hrest (tprops !! key) (Some svk) rv ->
    forall rp', (rp' !! key = rv) ->
                (forall k, k <> key -> rp' !! k = rp !! k) ->
    inv ({[key]} ∪ done) (<[result := Obj rp']> hc)).
  { intros rv Hrv Hkb rp' Hrp'key Hrp'other. exists hrest, rp'.
    split; [by apply insert_subseteq_r|].
    split; [by rewrite lookup_insert_eq|].
    split; [done|].
    split; [by apply insert_subseteq_r|].
    split; [done|]. split; [done|]. split.
    - intros k Hk'. destruct (decide (k = key)) as [->|Hne].
      + rewrite Hrp'key, Hsvk. done.
      + rewrite (Hrp'other k Hne). apply Hdone. by eapply handled_other.
    - intros k Hk'. destruct (unhandled_other _ _ _ Hk') as [Hne Hk''].
      rewrite Hrp'other by done. by apply Htodo. }
  destruct (decide (svk = HNull)) as [->|Hnn].
  { (* [null]: the key is deleted *)
    assert (x = VNull) as -> by (by apply (represents_null_iff _ _ _ Hx)).
    exists (deleteProp hc result key).
    split; [by apply mergeKey_null|].
    unfold deleteProp. rewrite Hrp.
    apply (Hwrite None).
    - rewrite Hpure. simpl. constructor.
    - constructor.
    - apply lookup_delete_eq.
    - intros k Hne. by apply lookup_delete_ne. }
  assert (Hxnn : x <> VNull).
  { intros ->. by apply Hnn, (represents_null_iff _ _ _ Hx). }
  assert (Hstore :
    plainObject hin svk = None \/
      plainObject hin (default HUndefined (tprops !! key)) = None ->
    exists hc', mergeKey rec source result hc key = Some hc' /\
                inv ({[key]} ∪ done) hc').
  { intros Hplain. exists (setProp hc result key svk). split.
    - apply mergeKey_store; [done|done|]. by rewrite Hps, Hgetr, Hpt.
    - unfold setProp. rewrite Hrp. apply (Hwrite (Some svk)).
      + rewrite Hpure, mergeAtKey_stored; [| done |].
        * constructor. by eapply represents_mono.
        * intros vprops tp -> Htv.
          destruct (represents_object_plain _ _ _ Hx) as [sl Hsl].
          destruct Hplain as [Hp|Hp]; [congruence|].
          pose proof (Hrt key) as Hkt. rewrite Htv in Hkt.
          inversion Hkt as [tvk y Hy Heq3 Heq4|]; subst.
          rewrite <- Heq3 in Hp. simpl in Hp.
          destruct (represents_object_plain _ _ _ Hy) as [tl Htl]. congruence.
      + by constructor.
      + apply lookup_insert_eq.
      + intros k Hne. by apply lookup_insert_ne. }
  destruct (plainObject hin svk) as [sl|] eqn:Hsl; [|apply Hstore; by left].
  destruct (plainObject hin (default HUndefined (tprops !! key))) as [tl|]
    eqn:Htl; [|apply Hstore; by right].
  clear Hstore.
  (* both hold plain objects: they are merged *)
  destruct (represents_plain_inv _ _ _ _ Hx Hsl) as [-> [svl ->]].
  pose proof (Hrt key) as Hkt.
  destruct (tprops !! key) as [tvk|] eqn:Htvk; [|done]. simpl in Htl.
  inversion Hkt as [tvk' y Hy Heq3 Heq4|]; subst tvk'. symmetry in Heq4.
  destruct (represents_plain_inv _ _ _ _ Hy Htl) as [-> [tvl ->]].
  assert (Hfuel : vsize (VObj svl) <= n).
  { pose proof (vsize_lookup _ _ _ Heq2). lia. }
  destruct (Hrec hin hc tl sl tvl svl Hinc Hy Hx Hfuel)
    as (h2 & merged & hout & Hcall & Hio & Hout & Hfoot2 & Hrep & Hbuilt).
  destruct (Hframed _ _ _ _ _ Hcall) as (Hsub2 & Hfresh & _).
  exists (setProp h2 result key (HRef merged)). split.
  { rewrite (mergeKey_merge _ _ _ _ _ (HRef sl) sl tl);
      [by rewrite Hcall | done | done | rewrite Hgetr; exact Hpt]. }
  unfold setProp. rewrite (lookup_weaken _ _ _ _ Hrp Hsub2).
  assert (Hrest2 : hrest ⊆ h2) by (by etrans).
  assert (Houtr : hout !! result = None).
  { destruct (hout !! result) as [c|] eqn:Hc; [|done].
    destruct (Hfoot2 result ltac:(by eexists)) as [[c' Hc']|Hc'].
    - pose proof (lookup_weaken _ _ _ _ Hc' Hin). congruence.
    - congruence. }
  exists (hrest ∪ hout), (<[key := HRef merged]> rp).
  split; [apply insert_subseteq_r; [done|by etrans]|].
  split; [by rewrite lookup_insert_eq|].
  split; [etrans; [exact Hin'|by apply map_union_subseteq_l]|].
  split.
  { apply insert_subseteq_r.
    - apply lookup_union_None. done.
    - by apply union_part_l. }
  split; [by apply lookup_union_None|].
  split.
  { intros l [c Hc]. apply lookup_union_Some_raw in Hc as [Hc|[_ Hc]].
    - apply Hfoot. by eexists.
    - destruct (Hfoot2 l ltac:(by eexists)) as [?|Hnone]; [by left|right].
      by eapply lookup_weaken_None. }
  split.
  - intros k Hk'. destruct (decide (k = key)) as [->|Hne].
    + rewrite lookup_insert_eq, Hsvk, Hpure, Heq4. simpl. split.
      * constructor. eapply represents_mono; [|exact Hrep].
        by eapply union_part_r.
      * apply (key_merged _ _ _ _ tl sl); [done|by rewrite Htvk|].
        eapply built_mono; [|exact Hbuilt]. by eapply union_part_r.
    + rewrite lookup_insert_ne by done.
      destruct (Hdone k (handled_other _ _ _ Hk' Hne)) as [Hr Hb]. split.
      * eapply option_represents_mono; [|exact Hr].
        by apply map_union_subseteq_l.
      * eapply keyBuilt_mono; [|exact Hb]. by apply map_union_subseteq_l.
  - intros k Hk'. destruct (unhandled_other _ _ _ Hk') as [Hne Hk''].
    rewrite lookup_insert_ne by done. by apply Htodo.
Qed.

Lemma mergeLoop_loopInv ks :
  NoDup ks ->
  forall done hc,
    (forall k, k ∈ ks -> (k ∉ done) /\ is_Some (sprops !! k)) ->
    inv done hc ->
    exists hc', mergeLoop rec source result hc ks = Some hc' /\
                inv (list_to_set ks ∪ done) hc'.
Proof.
  induction 1 as [|k ks Hk Hnd IH]; intros done hc Hks Hinv.
  - exists hc. split; [done|].
    by rewrite list_to_set_nil, (left_id_L ∅ (∪)).
  - destruct (Hks k ltac:(by left)) as [Hkd Hksome].
    destruct (mergeKey_loopInv done hc k Hinv Hkd Hksome)
      as (h1 & Hstep & Hinv1).
    destruct (IH ({[k]} ∪ done) h1) as (hc' & Hloop & Hinv'); [|done|].
    { intros k' Hk'. destruct (Hks k' ltac:(by right)) as [Hd Hsome].
      split; [|done].
      intros [Heq%elem_of_singleton|Hd']%elem_of_union; [by subst|done]. }
    exists hc'. rewrite mergeLoop_cons, Hstep. split; [done|].
    rewrite list_to_set_cons.
    replace ({[k]} ∪ list_to_set ks ∪ done)
      with (list_to_set ks ∪ ({[k]} ∪ done) : gset string); [done|].
    rewrite (assoc_L (∪)). f_equal. apply (comm_L (∪)).
Qed.

End Loop.

Lemma keys_NoDup (props : gmap string hvalue) : NoDup (keys props).
Proof. apply NoDup_fst_map_to_list. Qed.

Lemma elem_of_keys (props : gmap string hvalue) key :
  key ∈ keys props <-> is_Some (props !! key).
Proof.
  unfold keys. rewrite list_elem_of_fmap. split.
  - intros [[k v] [-> Hkv]]. apply elem_of_map_to_list in Hkv. by eexists.
  - intros [v Hv]. exists (key, v). split; [done|].
    by apply elem_of_map_to_list.
Qed.

(** With fuel for the size of [source], a call on two documents returns
    their merge, in a part of the store made of the part that held the
    arguments and of new cells. *)
Lemma deepMerge_merges fuel : merges (deepMerge fuel) fuel.
Proof.
  induction fuel as [|n IH];
    intros hin hall target source tv sv Hin Hrt Hrs Hsize.
  { simpl in Hsize. lia. }
  inversion Hrt as [| | | | |l1 tprops vp1 Ht Htk]; subst.
  inversion Hrs as [| | | | |l2 sprops vp2 Hs Hsk]; subst.
  simpl.
  rewrite (lookup_weaken _ _ _ _ Ht Hin), (lookup_weaken _ _ _ _ Hs Hin).
  set (result := fresh (dom hall)).
  assert (Hres : hall !! result = None) by apply fresh_unallocated.
  assert (Hinr : hin !! result = None) by (by eapply lookup_weaken_None).
  destruct (mergeLoop_loopInv (deepMerge n) n (deepMerge_framed n) IH
              hin hall source result tprops sprops tv sv
              Hin Hs Htk Hsk Hres Hsize (keys sprops) (keys_NoDup sprops)
              ∅ (<[result := Obj tprops]> hall))
    as (hc & Hloop & Hinv).
  { intros k Hk. split; [apply not_elem_of_empty|by apply elem_of_keys]. }
  { by apply loopInv_start. }
  rewrite Hloop.
  destruct Hinv
    as (hrest & rp & Hall & Hrp & Hin' & Hrest & Hrr & Hfoot & Hdone & Htodo).
  assert (Hsub : hrest ⊆ <[result := Obj rp]> hrest)
    by (by apply insert_subseteq).
  (* what the result cell holds at a key [source] has, and at one it lacks *)
  assert (Hhas : forall key, is_Some (sprops !! key) ->
            option_Forall2 (represents hrest) (rp !! key)
              (MergeEngine.deepMerge tv sv !! key) /\
            keyBuilt hin hrest (tprops !! key) (sprops !! key) (rp !! key)).
  { intros key Hkey. apply Hdone, elem_of_union. left.
    by apply elem_of_list_to_set, elem_of_keys. }
  assert (Hlacks : forall key, sprops !! key = None ->
            rp !! key = tprops !! key /\ sv !! key = None).
  { intros key Hkey. split.
    - apply Htodo. intros [Hk|Hk]%elem_of_union.
      + apply elem_of_list_to_set, elem_of_keys in Hk.
        rewrite Hkey in Hk. by destruct Hk.
      + by apply not_elem_of_empty in Hk.
    - pose proof (Hsk key) as Hk. rewrite Hkey in Hk. by inversion Hk. }
  exists hc, result, (<[result := Obj rp]> hrest).
  split; [done|].
  split; [by apply insert_subseteq_r|].
  split; [by apply insert_subseteq_l|].
  split.
  { intros l [c Hc]. destruct (decide (l = result)) as [->|Hne]; [by right|].
    rewrite lookup_insert_ne in Hc by done. apply Hfoot. by eexists. }
  split.
  - apply (represents_obj _ result rp); [by rewrite lookup_insert_eq|].
    intros key. destruct (sprops !! key) as [svk|] eqn:Hkey.
    + eapply option_represents_mono; [exact Hsub|].
      apply Hhas. by eexists.
    + destruct (Hlacks key Hkey) as [-> Hsv].
      rewrite deepMerge_lookup, Hsv. simpl.
      eapply option_represents_mono; [|apply Htk]. by etrans.
  - apply (built_intro _ _ target source result tprops sprops rp);
      [done|done|done|by rewrite lookup_insert_eq|].
    intros key. destruct (sprops !! key) as [svk|] eqn:Hkey.
    + eapply keyBuilt_mono; [exact Hsub|].
      rewrite <- Hkey. apply Hhas. by eexists.
    + destruct (Hlacks key Hkey) as [-> _]. constructor.
Qed.

(** C7, as stated, fails.  Merging [{n: {c: 2}}] into [{}] returns a new
    object whose key [n], which the merge wrote, holds the very object the
    source holds there: a cell that existed before the call, not a copy. *)
Lemma stored_object_is_shared :
  exists h' result,
    deepMerge 3 aliasHeap 1%positive 3%positive = Some (h', result) /\
    aliasHeap !! result = None /\
    getProp aliasHeap 3%positive "n" = HRef 4%positive /\
    getProp h' result "n" = HRef 4%positive /\
    aliasHeap !! 4%positive = Some (Obj (<["c" := HNum 2]> ∅)) /\
    h' !! 4%positive = Some (Obj (<["c" := HNum 2]> ∅)).
Proof. eexists _, _. split; [by vm_compute|]. by vm_compute. Qed.

(** C7, amended.  [deepMerge] on two objects of the store that hold the
    documents [tv] and [sv], where [sv] has no key [__proto__] in any
    nested mapping, with fuel for the size of [sv], returns, and
    - no cell that existed before the call is changed: the store after the
      call extends the store before, so [target] (and [source]) and every
      object reachable from them hold what they held, and still stand for
      the same documents;
    - the result is a cell that did not exist before the call, and so is
      the object at every key, at any depth, where the two arguments were
      merged;
    - at every other key the result holds the very value [target] holds
      there, when [source] lacks the key, or the very value [source] holds
      there, an object included: such an object is shared with [source],
      not copied ([built]);
    - the result stands for the merge of the two documents. *)
Theorem deepMerge_leaves_target h target source tv sv fuel :
  represents h (HRef target) (VObj tv) ->
  represents h (HRef source) (VObj sv) ->
  protoFree (VObj sv) = true ->
  vsize (VObj sv) <= fuel ->
  exists h' result,
    deepMerge fuel h target source = Some (h', result) /\
    h ⊆ h' /\
    h' !! target = h !! target /\
    represents h' (HRef target) (VObj tv) /\
    represents h' (HRef source) (VObj sv) /\
    h !! result = None /\
    built h h' target source result /\
    represents h' (HRef result) (VObj (MergeEngine.deepMerge tv sv)).
Proof.
  intros Hrt Hrs _ Hsize.
  destruct (deepMerge_merges fuel h h target source tv sv
              ltac:(done) Hrt Hrs Hsize)
    as (h' & result & hout & Hcall & Hin & Hout & _ & Hrep & Hbuilt).
  destruct (deepMerge_framed fuel _ _ _ _ _ Hcall) as (Hsub & Hfresh & _).
  exists h', result. split; [done|]. split; [done|].
  split.
  { inversion Hrt as [| | | | |l1 tprops vp1 Ht Htk]; subst.
    by rewrite Ht, (lookup_weaken _ _ _ _ Ht Hsub). }
  split; [eapply represents_mono; [exact Hsub|exact Hrt]|].
  split; [eapply represents_mono; [exact Hsub|exact Hrs]|].
  split; [done|].
  split.
  - eapply built_mono; [exact Hout|exact Hbuilt].
  - eapply represents_mono; [exact Hout|exact Hrep].
Qed.

Lemma represents_singleton h l key v x :
  h !! l = Some (Obj (<[key := v]> ∅)) ->
  represents h v x ->
  represents h (HRef l) (VObj (<[key := x]> ∅)).
Proof.
  intros Hl Hv. apply (represents_obj _ l (<[key := v]> ∅)); [done|].
  intros k. destruct (decide (k = key)) as [->|Hne].
  - rewrite !lookup_insert_eq. by constructor.
  - rewrite !lookup_insert_ne, !lookup_empty by done. constructor.
Qed.

Lemma deepMerge_leaves_target_witness :
  exists h' result,
    deepMerge 3 sampleHeap 1%positive 3%positive = Some (h', result) /\
    sampleHeap ⊆ h' /\
    h' !! 1%positive = sampleHeap !! 1%positive /\
    represents h' (HRef 1%positive) (VObj Samples.nestedB) /\
    represents h' (HRef 3%positive) (VObj Samples.nestedC) /\
    sampleHeap !! result = None /\
    built sampleHeap h' 1%positive 3%positive result /\
    represents h' (HRef result)
      (VObj (MergeEngine.deepMerge Samples.nestedB Samples.nestedC)).
Proof.
  apply (deepMerge_leaves_target sampleHeap 1%positive 3%positive
           Samples.nestedB Samples.nestedC 3).
  - apply (represents_singleton _ _ "a" (HRef 2%positive)); [reflexivity|].
    apply (represents_singleton _ _ "b" (HNum 1)); [reflexivity|constructor].
  - apply (represents_singleton _ _ "a" (HRef 4%positive)); [reflexivity|].
    apply (represents_singleton _ _ "c" (HNum 2)); [reflexivity|constructor].
  - reflexivity.
  - vm_compute. lia.
Defined.

End StoreMerge.

(** ** More on the merge engine *)

Section MergeAlgebra.

Lemma deepMerge_empty_patch (target : object) : deepMerge target ∅ = target.
Proof.
  apply map_eq. intros k. by rewrite deepMerge_lookup, lookup_empty.
Qed.

(** X2. Patches that mention different top-level keys can be applied in
    either order. *)
Theorem deepMerge_disjoint_commute (target s1 s2 : object) :
  s1 ##ₘ s2 ->
  deepMerge (deepMerge target s1) s2 = deepMerge (deepMerge target s2) s1.
Proof.
  intros Hdisj. apply map_eq. intros k. rewrite !deepMerge_lookup.
  destruct (s1 !! k) as [x|] eqn:H1, (s2 !! k) as [y|] eqn:H2; try done.
  by destruct (proj1 (map_disjoint_spec s1 s2) Hdisj k x y).
Qed.

Lemma deepMerge_disjoint_commute_witness :
  deepMerge (deepMerge Samples.a1 Samples.x1) Samples.y1
  = deepMerge (deepMerge Samples.a1 Samples.y1) Samples.x1.
Proof.
  apply deepMerge_disjoint_commute.
  apply map_disjoint_insert_l_2; [reflexivity|apply map_disjoint_empty_l].
Defined.

(** X3. Setting a key and then deleting it with [null] leaves the target
    without that key, whatever it held there before and whatever was set. *)
Theorem deepMerge_set_then_delete (target : object) (key : string) (v : value) :
  deepMerge (deepMerge target (<[key := v]> ∅)) (<[key := VNull]> ∅)
  = delete key target.
Proof.
  apply map_eq. intros k. rewrite !deepMerge_lookup.
  destruct (decide (k = key)) as [->|Hne].
  - by rewrite !lookup_insert_eq, lookup_delete_eq.
  - by rewrite !lookup_insert_ne, !lookup_empty, lookup_delete_ne by done.
Qed.

Lemma nullFree_lookup (props : object) (k : string) (v : value) :
  nullFree (VObj props) = true -> props !! k = Some v -> nullFree v = true.
Proof.
  intros Hfree Hk. simpl in Hfree.
  rewrite (map_fold_delete_L _ _ k v props) in Hfree; [| |exact Hk].
  - by apply andb_prop in Hfree as [? _].
  - intros j1 j2 z1 z2 y _ _ _.
    by destruct (nullFree z1), (nullFree z2), y.
Qed.

Lemma deepMerge_self (doc : object) :
  nullFree (VObj doc) = true -> deepMerge doc doc = doc.
Proof.
  induction doc as [doc IH] using object_ind. intros Hfree.
  apply map_eq. intros k. rewrite deepMerge_lookup.
  destruct (doc !! k) as [v|] eqn:Hk; [|done].
  pose proof (nullFree_lookup _ _ _ Hfree Hk) as Hv.
  destruct v; try done. simpl. do 2 f_equal. by apply (IH k).
Qed.

Lemma deepMerge_twice (source : object) :
  nullFree (VObj source) = true ->
  forall target,
    deepMerge (deepMerge target source) source = deepMerge target source.
Proof.
  induction source as [source IH] using object_ind. intros Hfree target.
  apply map_eq. intros k. rewrite !deepMerge_lookup.
  destruct (source !! k) as [v|] eqn:Hk; [|done].
  pose proof (nullFree_lookup _ _ _ Hfree Hk) as Hv.
  destruct v; try done. simpl.
  destruct (target !! k) as [[]|]; simpl; do 2 f_equal;
    try (by apply deepMerge_self); by apply (IH k).
Qed.

(** X4. Applying a patch a second time changes nothing when the patch holds
    no [null] in any of its nested mappings.  A patch with a nested [null]
    can be stored as it is the first time and only delete the second time,
    so that sending it twice differs from sending it once. *)
Theorem deepMerge_idempotent :
  (forall target source,
     nullFree (VObj source) = true ->
     deepMerge (deepMerge target source) source = deepMerge target source) /\
  (exists target source,
     deepMerge (deepMerge target source) source <> deepMerge target source).
Proof.
  split.
  - intros target source Hfree. by apply deepMerge_twice.
  - exists ∅, Samples.nestedNull. vm_compute. discriminate.
Qed.

Lemma deepMerge_idempotent_witness :
  deepMerge (deepMerge Samples.nestedB Samples.nestedC) Samples.nestedC
  = deepMerge Samples.nestedB Samples.nestedC.
Proof.
  apply (proj1 deepMerge_idempotent). reflexivity.
Defined.

End MergeAlgebra.

(** ** More on the relay *)

Section RelayMore.

Import Relay.

Implicit Types (st : state) (conns : list string) (c d sender : string).

Lemma receivedBy_app c (out1 out2 : outbox) :
  receivedBy c (out1 ++ out2)%list = (receivedBy c out1 ++ receivedBy c out2)%list.
Proof. unfold receivedBy. by rewrite filter_app, fmap_app. Qed.

Lemma filter_eq_absent (l : list string) d :
  d ∉ l -> filter (fun x => x = d) l = [].
Proof.
  induction l as [|y l IH]; intros Hd; [done|].
  assert (Hy : y <> d) by (intros ->; apply Hd; by left).
  rewrite filter_cons_False by done.
  apply IH. intros Hin. apply Hd. by right.
Qed.

Lemma filter_eq_NoDup (l : list string) d :
  NoDup l -> d ∈ l -> filter (fun x => x = d) l = [d].
Proof.
  induction 1 as [|x l Hx Hnd IH]; intros Hd; [by apply elem_of_nil in Hd|].
  destruct (decide (x = d)) as [->|Hne].
  - rewrite filter_cons_True by done. f_equal. by apply filter_eq_absent.
  - rewrite filter_cons_False by done. apply IH.
    apply elem_of_cons in Hd as [->|Hd]; done.
Qed.

Lemma receivedBy_once c msg (l : list string) :
  NoDup l -> c ∈ l -> receivedBy c ((fun x => (x, msg)) <$> l) = [msg].
Proof.
  intros Hnd Hc. by rewrite receivedBy_fmap, filter_eq_NoDup.
Qed.

Lemma getConnection_elem conns target :
  target ∈ conns -> getConnection conns target = Some target.
Proof.
  unfold getConnection. induction conns as [|x l IH]; intros Hin.
  - by apply elem_of_nil in Hin.
  - simpl. case_bool_decide as Hx; [by subst|].
    apply IH. apply elem_of_cons in Hin as [->|Hin]; done.
Qed.

Lemma getConnection_not_elem conns target :
  target ∉ conns -> getConnection conns target = None.
Proof.
  unfold getConnection. induction conns as [|x l IH]; intros Hin; [done|].
  simpl. case_bool_decide as Hx.
  - subst. exfalso. apply Hin. by left.
  - apply IH. intros Hl. apply Hin. by right.
Qed.

Lemma onMessage_peers conns message sender st :
  peers (fst (onMessage conns message sender st)) = peers st.
Proof.
  destruct message as [msg|]; [|done]. unfold onMessage.
  destruct (peers st !! sender); [|done].
  destruct msg; simpl; try done. by destruct (getConnection conns _).
Qed.

(** X5. The room state changes only when a registered sender sends
    [update-room-state], and then becomes the merge of the old state with the
    patch: connects, closes and every other frame leave it alone.  The peer
    registry changes at an id only when that id connects or closes; no frame
    ever changes it. *)
Theorem room_state_and_registry_frame conns i st :
  let st' := fst (step conns i st) in
  (roomState st' = roomState st \/
   exists patch sender,
     i = Message (Some (UpdateRoomState patch)) sender /\
     is_Some (peers st !! sender) /\
     roomState st' = deepMerge (roomState st) patch) /\
  (forall c,
     peers st' !! c = peers st !! c \/
     (exists ctx, i = Connect c ctx) \/ i = Close c) /\
  (forall message sender,
     peers (fst (onMessage conns message sender st)) = peers st).
Proof.
  split; [|split].
  - destruct i as [conn ctx|[msg|] sender|conn]; simpl; try by left.
    + unfold onMessage.
      destruct (peers st !! sender) as [info|] eqn:Hp; [|by left].
      destruct msg as [p|rs|target upd|ev|]; simpl; try by left.
      * right. exists rs, sender. split; [done|]. split; [by eexists|done].
      * destruct (getConnection conns target); by left.
    + unfold onClose. destruct (peers st !! conn); by left.
  - intros c. destruct i as [conn ctx|message sender|conn]; simpl.
    + destruct (decide (conn = c)) as [->|Hne]; [right; left; by eexists|].
      left. by rewrite lookup_insert_ne.
    + left. by rewrite onMessage_peers.
    + unfold onClose. destruct (peers st !! conn); [|by left]. simpl.
      destruct (decide (conn = c)) as [->|Hne]; [by right; right|].
      left. by rewrite lookup_delete_ne.
  - intros. apply onMessage_peers.
Qed.

Lemma onMessage_updateRoomState conns sender info patch st :
  peers st !! sender = Some info ->
  onMessage conns (Some (UpdateRoomState patch)) sender st =
  ({| peers := peers st; presence := presence st;
      roomState := deepMerge (roomState st) patch |},
   (fun conn => (conn, RoomStateUpdated (deepMerge (roomState st) patch)))
     <$> conns).
Proof.
  intros Hp. unfold onMessage. rewrite Hp. by rewrite broadcast_all.
Qed.

Lemma run_cons_snd conns (i : input) rest st :
  snd (run ((conns, i) :: rest) st)
  = (snd (step conns i st) ++ snd (run rest (fst (step conns i st))))%list.
Proof.
  cbn [run]. destruct (step conns i st) as [st1 out1]. cbn [fst snd].
  by destruct (run rest st1).
Qed.

(** X6. Room-state patches from registered senders, whoever they are,
    handled in arrival order, leave the left fold of [deepMerge] over the
    patches as room state, and touch neither the registry nor any presence
    entry.  Each patch is answered by a [room-state-updated] frame with the
    whole room state as merged up to that patch, to every connection the
    room holds at that moment, the sender included; the outbox of the run
    is these answers in order, and nothing else. *)
Theorem update_room_state_left_fold updates st :
  (forall u, u ∈ updates -> is_Some (peers st !! snd (fst u))) ->
  let result := run (roomStateUpdates updates) st in
  roomState (fst result) = foldl deepMerge (roomState st) (snd <$> updates) /\
  peers (fst result) = peers st /\
  presence (fst result) = presence st /\
  snd result = roomStateAnswers (roomState st) updates.
Proof.
  intros Hreg result. subst result.
  revert st Hreg. induction updates as [|[[conns sender] patch] l IH];
    intros st Hreg; [done|].
  unfold roomStateUpdates. rewrite fmap_cons. fold (roomStateUpdates l).
  rewrite run_cons_fst, run_cons_snd. cbn [step fst snd].
  destruct (Hreg (conns, sender, patch) ltac:(by left)) as [info Hinfo].
  rewrite (onMessage_updateRoomState _ _ _ _ _ Hinfo). cbn [fst snd].
  set (st1 := {| peers := peers st; presence := presence st;
                 roomState := deepMerge (roomState st) patch |}).
  destruct (IH st1) as (Hrs & Hp & Hq & Hout).
  { intros u Hu. apply (Hreg u). by right. }
  rewrite Hrs, Hp, Hq, Hout. done.
Qed.

Lemma update_room_state_left_fold_witness :
  let updates :=
    [(Samples.conns, "a", Samples.x1); (Samples.conns, "b", Samples.y1)] in
  let result := run (roomStateUpdates updates) Samples.room in
  roomState (fst result)
    = foldl deepMerge (roomState Samples.room) [Samples.x1; Samples.y1] /\
  peers (fst result) = peers Samples.room /\
  presence (fst result) = presence Samples.room /\
  snd result
    = [("a", RoomStateUpdated Samples.x1);
       ("b", RoomStateUpdated Samples.x1);
       ("a", RoomStateUpdated (<["x" := VNum 1]> Samples.y1));
       ("b", RoomStateUpdated (<["x" := VNum 1]> Samples.y1))].
Proof.
  apply (update_room_state_left_fold
           [(Samples.conns, "a", Samples.x1); (Samples.conns, "b", Samples.y1)]
           Samples.room).
  intros u Hu.
  apply elem_of_cons in Hu as [->|Hu]; [by eexists|].
  apply elem_of_cons in Hu as [->|Hu]; [by eexists|].
  by apply elem_of_nil in Hu.
Defined.

(** X7. A [request-presence-update] frame of a registered sender never
    changes the state.  When the target id is among the connections of the
    room, exactly one frame is sent, to the target alone, and it names the
    sending connection as [fromClientId]; otherwise nothing is sent. *)
Theorem request_presence_update_routing conns target update sender info st :
  peers st !! sender = Some info ->
  let result :=
    onMessage conns (Some (RequestPresenceUpdate target update)) sender st in
  fst result = st /\
  (target ∈ conns ->
     snd result = [(target, PresenceUpdateRequest update sender)]) /\
  (target ∉ conns -> snd result = []).
Proof.
  intros Hp result. subst result. unfold onMessage. rewrite Hp.
  split; [by destruct (getConnection conns target)|]. split; intros Hin.
  - by rewrite (getConnection_elem _ _ Hin).
  - by rewrite (getConnection_not_elem _ _ Hin).
Qed.

Lemma request_presence_update_routing_witness :
  snd (onMessage Samples.conns
         (Some (RequestPresenceUpdate "b" Samples.x1)) "a" Samples.room)
    = [("b", PresenceUpdateRequest Samples.x1 "a")] /\
  snd (onMessage Samples.conns
         (Some (RequestPresenceUpdate "z" Samples.x1)) "a" Samples.room)
    = [].
Proof.
  split.
  - apply (proj1 (proj2 (request_presence_update_routing Samples.conns "b"
             Samples.x1 "a" Samples.alice Samples.room eq_refl))).
    right. left.
  - apply (proj2 (proj2 (request_presence_update_routing Samples.conns "z"
             Samples.x1 "a" Samples.alice Samples.room eq_refl))).
    intros Hin. apply elem_of_cons in Hin as [Heq|Hin]; [done|].
    apply elem_of_cons in Hin as [Heq|Hin]; [done|].
    by apply elem_of_nil in Hin.
Defined.

Lemma receivedBy_broadcast_excluded c conns msg :
  receivedBy c (broadcast conns msg [c]) = [].
Proof. rewrite broadcast_except. apply receivedBy_excluded. Qed.

Lemma receivedBy_broadcast_other c d conns msg :
  NoDup conns -> d ∈ conns -> d <> c ->
  receivedBy d (broadcast conns msg [c]) = [msg].
Proof.
  intros Hnd Hd Hne. rewrite broadcast_except. apply receivedBy_once.
  - by apply NoDup_filter.
  - by apply list_elem_of_filter.
Qed.

(** X8. When a connection [c] is accepted, the first frame sent is [init],
    to [c] alone, and it is the only frame [c] receives; it carries the id
    of [c] and the state as it is after the connect, so the snapshot lists
    [c] itself among the peers, with an empty presence entry.  Every other
    connection of the room receives [peer-joined] and then
    [presence-updated] with the empty mapping for [c].  The room state is
    not changed.  This is for ids other than [__proto__]: neither [c] nor a
    registered peer has that id, under which the snapshot, a plain object,
    lists nothing. *)
Theorem connect_frames conns c ctx st :
  c <> protoKey ->
  peers st !! protoKey = None ->
  presence st !! protoKey = None ->
  let result := onConnect conns c ctx st in
  let st' := fst result in
  head (snd result)
    = Some (c, Init c (roomState st') (presence st') (peers st')) /\
  receivedBy c (snd result)
    = [Init c (roomState st') (presence st') (peers st')] /\
  presence st' !! c = Some ∅ /\
  JsObject.set (VObj <$> presence st) [] c (VObj ∅) []
    = (VObj <$> presence st', []) /\
  peers st' !! protoKey = None /\
  presence st' !! protoKey = None /\
  roomState st' = roomState st /\
  exists info,
    peers st' !! c = Some info /\
    forall d,
      NoDup conns -> d ∈ conns -> d <> c ->
      receivedBy d (snd result)
        = [PeerJoined c (username info) (avatarUrl info);
           PresenceUpdated c ∅].
Proof.
  intros Hc Hpeers Hpresence result st'. subst st' result.
  unfold onConnect. cbn [fst snd].
  split; [done|]. split.
  { rewrite !receivedBy_app, !receivedBy_broadcast_excluded.
    unfold send, receivedBy. rewrite filter_cons_True by done. done. }
  split; [simpl; by rewrite lookup_insert_eq|].
  split; [simpl; by rewrite set_own_key, fmap_insert|].
  split; [simpl; by rewrite lookup_insert_ne|].
  split; [simpl; by rewrite lookup_insert_ne|].
  split; [done|].
  eexists. split; [simpl; by rewrite lookup_insert_eq|].
  intros d Hnd Hd Hne. cbn [username avatarUrl].
  rewrite !receivedBy_app, !receivedBy_broadcast_other by done.
  unfold send, receivedBy. rewrite filter_cons_False by done. done.
Qed.

Lemma connect_frames_witness :
  let result := onConnect Samples.conns "z" Samples.noQuery Samples.room in
  let st' := fst result in
  head (snd result)
    = Some ("z", Init "z" (roomState st') (presence st') (peers st')) /\
  receivedBy "z" (snd result)
    = [Init "z" (roomState st') (presence st') (peers st')] /\
  presence st' !! "z" = Some ∅ /\
  JsObject.set (VObj <$> presence Samples.room) [] "z" (VObj ∅) []
    = (VObj <$> presence st', []) /\
  peers st' !! protoKey = None /\
  presence st' !! protoKey = None /\
  roomState st' = roomState Samples.room /\
  exists info,
    peers st' !! "z" = Some info /\
    forall d,
      NoDup Samples.conns -> d ∈ Samples.conns -> d <> "z" ->
      receivedBy d (snd result)
        = [PeerJoined "z" (username info) (avatarUrl info);
           PresenceUpdated "z" ∅].
Proof.
  apply (connect_frames Samples.conns "z" Samples.noQuery Samples.room);
    done.
Defined.

Lemma orElse_nonempty (a : option string) (b : string) :
  b <> "" -> orElse a b <> "".
Proof.
  intros Hb. unfold orElse. destruct a as [s|]; [|done].
  destruct (String.eqb s "") eqn:Hs; [done|].
  by apply String.eqb_neq in Hs.
Qed.

Lemma registered_names conns i st :
  (forall c info, peers st !! c = Some info ->
                  username info <> "" /\ avatarUrl info <> "") ->
  forall c info, peers (fst (step conns i st)) !! c = Some info ->
                 username info <> "" /\ avatarUrl info <> "".
Proof.
  intros IH c info. destruct i as [conn ctx|message sender|conn]; simpl.
  - destruct (decide (conn = c)) as [->|Hne].
    + rewrite lookup_insert_eq. intros [= <-]. simpl.
      split; by apply orElse_nonempty.
    + rewrite lookup_insert_ne by done. apply IH.
  - rewrite onMessage_peers. apply IH.
  - unfold onClose. destruct (peers st !! conn); [|apply IH]. simpl.
    destruct (decide (conn = c)) as [->|Hne].
    + by rewrite lookup_delete_eq.
    + rewrite lookup_delete_ne by done. apply IH.
Qed.

(** X9. In every state the server can reach, every registered peer has a
    username and an avatar reference that are not the empty string: an
    absent or empty query value is replaced by the synthesized default. *)
Theorem registered_names_nonempty st c info :
  reachable st ->
  peers st !! c = Some info ->
  username info <> "" /\ avatarUrl info <> "".
Proof.
  intros Hr. revert c info.
  induction Hr as [|conns i st Hst IH].
  - intros c info. simpl. by rewrite lookup_empty.
  - by apply registered_names.
Qed.

Lemma registered_names_nonempty_witness :
  username {| username := "Guest-a";
              avatarUrl :=
                "https://api.dicebear.com/7.x/pixel-art/svg?seed=a" |} <> ""
  /\ avatarUrl {| username := "Guest-a";
                  avatarUrl :=
                    "https://api.dicebear.com/7.x/pixel-art/svg?seed=a" |}
     <> "".
Proof.
  apply (registered_names_nonempty
           (fst (step [] (Connect "a" Samples.noQuery) initial)) "a").
  - apply reachable_step, reachable_initial.
  - reflexivity.
Defined.

(** X10. In every state the server can reach in which no peer is
    registered under the id [__proto__], the presence map and the peer
    registry have the same ids: one presence entry per registered peer, and
    none for anybody else. *)
Theorem presence_ids_are_peer_ids st :
  reachable st ->
  peers st !! protoKey = None ->
  dom (presence st) = dom (peers st) /\ presence st !! protoKey = None.
Proof.
  intros Hr Hproto. split.
  - apply set_eq. intros c.
    rewrite !elem_of_dom, <- !not_eq_None_Some.
    by rewrite (reachable_presence_dom st Hr c).
  - by apply (reachable_presence_dom st Hr).
Qed.

Lemma presence_ids_are_peer_ids_witness :
  dom (presence (fst (step [] (Connect "a" Samples.noQuery) initial)))
  = dom (peers (fst (step [] (Connect "a" Samples.noQuery) initial))) /\
  presence (fst (step [] (Connect "a" Samples.noQuery) initial)) !! protoKey
  = None.
Proof.
  apply presence_ids_are_peer_ids.
  - apply reachable_step, reachable_initial.
  - reflexivity.
Defined.

Lemma recipients_broadcast conns msg exclude r :
  r ∈ recipients (broadcast conns msg exclude) -> r ∈ conns.
Proof.
  unfold recipients, broadcast. rewrite <- list_fmap_compose.
  intros Hin. apply list_elem_of_fmap in Hin as [x [-> Hx]].
  by apply list_elem_of_filter in Hx as [_ Hx].
Qed.

(** X11. The server never addresses a frame to anyone outside the room: a
    recipient is one of the connections the room holds, or the connection
    that is being accepted. *)
Theorem recipients_in_room conns i st r :
  r ∈ recipients (snd (step conns i st)) ->
  r ∈ conns \/ exists ctx, i = Connect r ctx.
Proof.
  destruct i as [conn ctx|[msg|] sender|conn]; simpl.
  - unfold recipients. rewrite !fmap_app. simpl.
    intros [->|[Hin|Hin]%elem_of_app]%elem_of_cons.
    + right. by exists ctx.
    + left. by eapply recipients_broadcast.
    + left. by eapply recipients_broadcast.
  - unfold onMessage. destruct (peers st !! sender) as [info|];
      [|by intros ?%elem_of_nil].
    destruct msg as [p|rs|target upd|ev|]; simpl;
      try (intros Hin; left; by eapply recipients_broadcast);
      try (by intros ?%elem_of_nil).
    destruct (getConnection conns target) as [t|] eqn:Hget;
      [|by intros ?%elem_of_nil].
    intros Hin. left. apply list_elem_of_singleton in Hin. subst.
    unfold getConnection in Hget. apply find_some in Hget as [Hin Heq].
    apply list_elem_of_In. done.
  - by intros ?%elem_of_nil.
  - unfold onClose. destruct (peers st !! conn);
      [|by intros ?%elem_of_nil].
    intros Hin. left. by eapply recipients_broadcast.
Qed.

Lemma recipients_in_room_witness :
  "b" ∈ Samples.conns \/
  exists ctx, Message (Some (UpdatePresence Samples.x1)) "a" = Connect "b" ctx.
Proof.
  apply (recipients_in_room Samples.conns
           (Message (Some (UpdatePresence Samples.x1)) "a") Samples.room "b").
  right. left.
Defined.

(** X12. Closing a registered connection sends [peer-left] to every
    connection the room holds and nothing else; closing it a second time
    changes nothing and sends nothing. *)
Theorem close_once conns1 conns2 c st :
  let first := onClose conns1 c st in
  onClose conns2 c (fst first) = (fst first, []) /\
  (is_Some (peers st !! c) ->
     snd first = (fun conn => (conn, PeerLeft c)) <$> conns1 /\
     peers (fst first) !! c = None /\ presence (fst first) !! c = None).
Proof.
  intros first. subst first. unfold onClose.
  destruct (peers st !! c) as [info|] eqn:Hp; simpl.
  - rewrite lookup_delete_eq. split; [done|]. intros _.
    by rewrite broadcast_all, !lookup_delete_eq.
  - rewrite Hp. split; [done|]. by intros [? ?].
Qed.

End RelayMore.

(** ** More on the replica *)

Section ReplicaSubscriptions.

Import Replica.

Implicit Types (st : state) (cb : nat).









End ReplicaSubscriptions.

Section ReplicaSync.

Import Replica.

Implicit Types (st : state) (rs : Relay.state) (c d : string).
Implicit Types (frame : ServerToClientMessage).

Lemma onSocketMessage_twice (f : option ServerToClientMessage) st :
  fst (onSocketMessage f (fst (onSocketMessage f st)))
  = fst (onSocketMessage f st).
Proof.
  destruct f as [[]|]; simpl; try done;
    unfold withMirror, withConnection; simpl; f_equal;
    rewrite ?insert_insert_eq, ?delete_delete_eq; try done.
  generalize (initialized st). by intros [].
Qed.

Lemma deliver_cons_fst frame frames st :
  fst (deliver (frame :: frames) st)
  = fst (deliver frames (fst (onSocketMessage (Some frame) st))).
Proof.
  cbn [deliver]. destruct (onSocketMessage (Some frame) st) as [st1 e1].
  cbn [fst]. by destruct (deliver frames st1).
Qed.

Lemma deliver_app_fst frames1 frames2 st :
  fst (deliver (frames1 ++ frames2) st)
  = fst (deliver frames2 (fst (deliver frames1 st))).
Proof.
  revert st. induction frames1 as [|f l IH]; intros st; [done|].
  rewrite <- app_comm_cons, !deliver_cons_fst. apply IH.
Qed.

Lemma deliver_replicate_fst n frame st :
  fst (deliver (replicate (S n) frame) st)
  = fst (onSocketMessage (Some frame) st).
Proof.
  revert st. induction n as [|n IH]; intros st.
  - cbn [replicate deliver]. by destruct (onSocketMessage (Some frame) st).
  - change (replicate (S (S n)) frame) with (frame :: replicate (S n) frame).
    rewrite deliver_cons_fst, IH. apply onSocketMessage_twice.
Qed.

Lemma receivedBy_some c msg (l : list string) :
  c ∈ l ->
  exists n, Relay.receivedBy c ((fun x => (x, msg)) <$> l) = replicate (S n) msg.
Proof.
  intros Hc. rewrite receivedBy_fmap.
  assert (Hf : c ∈ filter (fun x => x = c) l) by (by apply list_elem_of_filter).
  destruct (filter (fun x => x = c) l) as [|y l'];
    [by apply elem_of_nil in Hf|].
  by exists (length l').
Qed.

Lemma receivedBy_broadcast_some c conns msg :
  c ∈ conns ->
  exists n, Relay.receivedBy c (Relay.broadcast conns msg []) = replicate (S n) msg.
Proof. intros Hc. rewrite broadcast_all. by apply receivedBy_some. Qed.

Lemma receivedBy_broadcast_other_some c d conns msg :
  c ∈ conns -> c <> d ->
  exists n,
    Relay.receivedBy c (Relay.broadcast conns msg [d]) = replicate (S n) msg.
Proof.
  intros Hc Hne. rewrite broadcast_except. apply receivedBy_some.
  by apply list_elem_of_filter.
Qed.

Lemma receivedBy_broadcast_any c conns msg exclude :
  exists k,
    Relay.receivedBy c (Relay.broadcast conns msg exclude) = replicate k msg.
Proof. unfold Relay.broadcast. rewrite receivedBy_fmap. by eexists. Qed.

Lemma receivedBy_send c d msg :
  Relay.receivedBy c (Relay.send d msg) = if decide (d = c) then [msg] else [].
Proof.
  unfold Relay.send, Relay.receivedBy. case_decide.
  - by rewrite filter_cons_True.
  - by rewrite filter_cons_False.
Qed.

(** Frames that repeat one frame keep the mirror in step when one such
    frame does. *)
Lemma synced_replicate rs st k frame :
  synced rs st ->
  synced rs (fst (onSocketMessage (Some frame) st)) ->
  synced rs (fst (deliver (replicate k frame) st)).
Proof.
  intros H0 H1. destruct k as [|n]; [done|]. by rewrite deliver_replicate_fst.
Qed.

(** One input of the server, and the frames it makes a connection of the
    room receive. *)
Lemma synced_step conns (i : Relay.input) rs st c :
  synced rs st -> c ∈ conns ->
  synced (fst (Relay.step conns i rs))
         (fst (deliver (Relay.receivedBy c (snd (Relay.step conns i rs))) st)).
Proof.
  intros (Hp & Hr & Hq) Hc.
  destruct i as [d ctx|[msg|] sender|d]; cbn [Relay.step].
  - (* connect *)
    unfold Relay.onConnect. cbn [fst snd].
    rewrite !receivedBy_app, receivedBy_send.
    destruct (decide (d = c)) as [->|Hne].
    + rewrite !receivedBy_broadcast_excluded. simpl. done.
    + destruct (receivedBy_broadcast_other_some c d conns
                  (PeerJoined d
                     (Relay.orElse (Relay.queryUsername ctx)
                        ("Guest-" ++ String.substring 0 4 d))
                     (Relay.orElse (Relay.queryAvatarUrl ctx)
                        ("https://api.dicebear.com/7.x/pixel-art/svg?seed="
                           ++ d))) Hc ltac:(done)) as [n1 ->].
      destruct (receivedBy_broadcast_other_some c d conns
                  (PresenceUpdated d ∅) Hc ltac:(done)) as [n2 ->].
      rewrite app_nil_l, deliver_app_fst, !deliver_replicate_fst. simpl.
      unfold synced. simpl. by rewrite Hp, Hr, Hq.
  - (* a frame that parses *)
    unfold Relay.onMessage.
    destruct (Relay.peers rs !! sender) as [info|]; [|done].
    destruct msg as [p|patch|target upd|ev|]; cbn [fst snd]; [| | | |done].
    + destruct (receivedBy_broadcast_some c conns
                  (PresenceUpdated sender
                     (deepMerge (default ∅ (Relay.presence rs !! sender)) p))
                  Hc) as [n ->].
      rewrite deliver_replicate_fst. unfold synced. simpl.
      by rewrite Hp, Hr, Hq.
    + destruct (receivedBy_broadcast_some c conns
                  (RoomStateUpdated (deepMerge (Relay.roomState rs) patch))
                  Hc) as [n ->].
      rewrite deliver_replicate_fst. unfold synced. simpl.
      by rewrite Hp, Hq.
    + destruct (Relay.getConnection conns target) as [t|]; [|done].
      cbn [fst snd]. rewrite receivedBy_send.
      destruct (decide (t = c)); done.
    + destruct (receivedBy_broadcast_any c conns
                  (Event (Relay.eventData ev sender info))
                  (if truthy (Relay.eventEcho ev) then [] else [sender]))
        as [k ->].
      by apply synced_replicate.
  - (* a frame that does not parse *)
    done.
  - (* close *)
    unfold Relay.onClose.
    destruct (Relay.peers rs !! d) as [info|]; [|done]. cbn [fst snd].
    destruct (receivedBy_broadcast_some c conns (PeerLeft d) Hc) as [n ->].
    rewrite deliver_replicate_fst. unfold synced. simpl.
    by rewrite Hp, Hr, Hq.
Qed.

(** X14. A frame delivered several times in a row leaves the replica in
    the state one delivery leaves it in: the mirror, the subscriptions and
    the pending [initialize()] are the same. *)
Theorem duplicate_frame_harmless n frame st :
  fst (deliver (replicate (S n) frame) st)
  = fst (onSocketMessage (Some frame) st).
Proof. apply deliver_replicate_fst. Qed.

(** X15. A replica that has called [initialize()] and is fed the frames the
    server addresses to it when it is accepted holds, after them, exactly
    what the server holds: presence, room state and peers of the state after
    the connect, its own id as [clientId], and a completed [initialize()];
    no callback is called and no subscription is lost on the way.  This is
    for ids other than [__proto__]: neither the new connection nor a
    registered peer has that id, which the snapshot of [init] would not
    list. *)
Theorem init_mirrors_relay conns c ctx rs st :
  c <> protoKey ->
  Relay.peers rs !! protoKey = None ->
  Relay.presence rs !! protoKey = None ->
  let result := Relay.onConnect conns c ctx rs in
  let arrived :=
    deliver (Relay.receivedBy c (snd result)) (initialize st) in
  synced (fst result) (fst arrived) /\
  _peers (fst arrived) !! protoKey = None /\
  _presence (fst arrived) !! protoKey = None /\
  _clientId (fst arrived) = c /\
  initialized (fst arrived) = Resolved /\
  snd arrived = [] /\
  presenceSubscribers (fst arrived) = presenceSubscribers st /\
  roomStateSubscribers (fst arrived) = roomStateSubscribers st /\
  presenceUpdateRequestSubscribers (fst arrived)
    = presenceUpdateRequestSubscribers st /\
  onmessage (fst arrived) = onmessage st.
Proof.
  intros Hc Hpeers Hpresence result arrived. subst arrived result.
  unfold Relay.onConnect. cbn [fst snd].
  rewrite !receivedBy_app, receivedBy_send, decide_True by done.
  rewrite !receivedBy_broadcast_excluded. simpl.
  rewrite !lookup_insert_ne by done. done.
Qed.

Lemma init_mirrors_relay_witness :
  let result :=
    Relay.onConnect Samples.conns "z" Samples.noQuery Samples.room in
  let arrived :=
    deliver (Relay.receivedBy "z" (snd result)) (initialize create) in
  synced (fst result) (fst arrived) /\
  _peers (fst arrived) !! protoKey = None /\
  _presence (fst arrived) !! protoKey = None /\
  _clientId (fst arrived) = "z" /\
  initialized (fst arrived) = Resolved /\
  snd arrived = [] /\
  presenceSubscribers (fst arrived) = presenceSubscribers create /\
  roomStateSubscribers (fst arrived) = roomStateSubscribers create /\
  presenceUpdateRequestSubscribers (fst arrived)
    = presenceUpdateRequestSubscribers create /\
  onmessage (fst arrived) = onmessage create.
Proof.
  apply (init_mirrors_relay Samples.conns "z" Samples.noQuery Samples.room
           create); done.
Defined.

(** As long as the id [__proto__] is not accepted as a connection, no peer
    is registered under it and no presence entry is kept under it. *)
Lemma step_without_proto_id conns (i : Relay.input) rs :
  Relay.peers rs !! protoKey = None ->
  Relay.presence rs !! protoKey = None ->
  (forall ctx, i <> Relay.Connect protoKey ctx) ->
  Relay.peers (fst (Relay.step conns i rs)) !! protoKey = None /\
  Relay.presence (fst (Relay.step conns i rs)) !! protoKey = None.
Proof.
  intros Hpeers Hpresence Hi.
  destruct i as [d ctx|[msg|] sender|d]; cbn [Relay.step]; [| |done|].
  - assert (Hd : d <> protoKey) by (intros ->; by apply (Hi ctx)).
    simpl. by rewrite !lookup_insert_ne.
  - unfold Relay.onMessage.
    destruct (Relay.peers rs !! sender) as [info|] eqn:Hs; [|done].
    assert (Hne : sender <> protoKey) by (intros ->; congruence).
    destruct msg as [p|patch|target upd|ev|]; cbn [fst]; try done.
    + simpl. by rewrite lookup_insert_ne.
    + by destruct (Relay.getConnection conns target).
  - unfold Relay.onClose. destruct (Relay.peers rs !! d); [|done]. simpl.
    split; apply lookup_delete_None; by right.
Qed.

(** X16. A replica whose mirror holds what the server holds stays in step
    with it: whatever inputs the server handles, as long as the replica's
    connection is among the connections of the room, the frames the server
    addresses to that connection, delivered in order, leave in the mirror
    the presence, room state and peers of the server's final state.  This
    is for ids other than [__proto__]: no peer is registered under that id
    at the start and no connection with that id is accepted, so that no
    frame names it and neither side ever holds an entry under it. *)
Theorem replica_follows_relay inputs rs st c :
  synced rs st ->
  Relay.peers rs !! protoKey = None ->
  Relay.presence rs !! protoKey = None ->
  Forall (fun ci => c ∈ fst ci /\
                    forall ctx, snd ci <> Relay.Connect protoKey ctx) inputs ->
  let rs' := fst (Relay.run inputs rs) in
  let st' :=
    fst (deliver (Relay.receivedBy c (snd (Relay.run inputs rs))) st) in
  synced rs' st' /\
  Relay.peers rs' !! protoKey = None /\
  Relay.presence rs' !! protoKey = None /\
  _peers st' !! protoKey = None /\
  _presence st' !! protoKey = None.
Proof.
  intros Hsync Hpeers Hpresence Hall.
  assert (Hmain :
    synced (fst (Relay.run inputs rs))
      (fst (deliver (Relay.receivedBy c (snd (Relay.run inputs rs))) st)) /\
    Relay.peers (fst (Relay.run inputs rs)) !! protoKey = None /\
    Relay.presence (fst (Relay.run inputs rs)) !! protoKey = None).
  { revert rs st Hsync Hpeers Hpresence.
    induction Hall as [|[conns i] inputs [Hc Hi] Hall IH];
      intros rs st Hsync Hpeers Hpresence; [done|].
    simpl in Hc, Hi. simpl.
    pose proof (synced_step conns i rs st c Hsync Hc) as Hstep.
    destruct (step_without_proto_id conns i rs Hpeers Hpresence Hi)
      as [Hpeers1 Hpresence1].
    destruct (Relay.step conns i rs) as [rs1 out1].
    cbn [fst snd] in Hstep, Hpeers1, Hpresence1.
    specialize (IH rs1 _ Hstep Hpeers1 Hpresence1).
    destruct (Relay.run inputs rs1) as [rs2 out2]. cbn [fst snd] in *.
    by rewrite receivedBy_app, deliver_app_fst. }
  intros rs' st'. subst rs' st'.
  destruct Hmain as (Hs & Hp & Hq). split; [done|]. split; [done|].
  split; [done|]. destruct Hs as (Hs1 & _ & Hs3). by rewrite Hs1, Hs3.
Qed.

Lemma replica_follows_relay_witness :
  let inputs :=
    [(["a"], Relay.Connect "a" Samples.noQuery);
     (["a"], Relay.Message (Some (UpdatePresence Samples.x1)) "a")] in
  let rs' := fst (Relay.run inputs Relay.initial) in
  let st' :=
    fst (deliver
           (Relay.receivedBy "a" (snd (Relay.run inputs Relay.initial)))
           create) in
  synced rs' st' /\
  Relay.peers rs' !! protoKey = None /\
  Relay.presence rs' !! protoKey = None /\
  _peers st' !! protoKey = None /\
  _presence st' !! protoKey = None.
Proof.
  apply (replica_follows_relay
           [(["a"], Relay.Connect "a" Samples.noQuery);
            (["a"], Relay.Message (Some (UpdatePresence Samples.x1)) "a")]
           Relay.initial create "a").
  - repeat split.
  - reflexivity.
  - reflexivity.
  - repeat constructor; done.
Defined.

(** X17. The optimistic edit agrees with the server.  When the replica's
    own presence entry is the one the server holds and its connection is
    registered, [updatePresence] leaves in the mirror the entry the server
    computes from the same patch; the frames the server then addresses to
    the replica do not change the presence mirror any more; and a mirror
    that held what the server holds still does. *)
Theorem optimistic_presence_agrees conns patch info rs st :
  Relay.peers rs !! _clientId st = Some info ->
  _presence st !! _clientId st = Relay.presence rs !! _clientId st ->
  let st1 := fst (updatePresence patch st) in
  let result :=
    Relay.onMessage conns (Some (UpdatePresence patch)) (_clientId st) rs in
  _presence st1 !! _clientId st
    = Relay.presence (fst result) !! _clientId st /\
  _presence (fst (deliver (Relay.receivedBy (_clientId st) (snd result)) st1))
    = _presence st1 /\
  (synced rs st -> synced (fst result) st1).
Proof.
  intros Hreg Hsame st1 result. subst st1 result.
  unfold Relay.onMessage. rewrite Hreg. cbn [fst snd].
  split; [simpl; by rewrite !lookup_insert_eq, Hsame|]. split.
  - destruct (receivedBy_broadcast_any (_clientId st) conns
                (PresenceUpdated (_clientId st)
                   (deepMerge
                      (default ∅ (Relay.presence rs !! _clientId st)) patch))
                []) as [[|n] ->]; [done|].
    rewrite deliver_replicate_fst. simpl.
    by rewrite Hsame, insert_insert_eq.
  - intros (Hp & Hr & Hq). unfold synced. simpl. by rewrite Hp, Hr, Hq.
Qed.

Lemma optimistic_presence_agrees_witness :
  _presence (fst (updatePresence Samples.x1
                    (withMirror (Relay.presence Samples.room) ∅ ∅ "a" create)))
    !! "a"
  = Relay.presence
      (fst (Relay.onMessage Samples.conns (Some (UpdatePresence Samples.x1))
              "a" Samples.room)) !! "a".
Proof.
  apply (optimistic_presence_agrees Samples.conns Samples.x1 Samples.alice
           Samples.room
           (withMirror (Relay.presence Samples.room) ∅ ∅ "a" create));
    reflexivity.
Defined.

End ReplicaSync.

Section ReplicaConnection.

Import Replica.

Implicit Types (st : state).

(** X18. While [initialize()] is pending, the timer firing rejects it with
    the timeout error, closes the socket and drops it, and leaves the mirror
    alone; every later send is then dropped.  Once [init] has arrived the
    timer is cleared: firing it does nothing, and [initialize()] stays
    completed. *)
Theorem initialize_timeout st :
  let pending := initialize st in
  let late := onTimeout pending in
  initialized (fst late)
    = Rejected "WebsimSocket: initialization timed out" /\
  socket (fst late) = None /\
  snd late = [SocketClose] /\
  mirror (fst late) = mirror st /\
  (forall m : ClientToServerMessage, sendToServer m (fst late) = []) /\
  (forall clientId roomState presence peers,
     let ready :=
       fst (onSocketMessage (Some (Init clientId roomState presence peers))
              pending) in
     onTimeout ready = (ready, []) /\
     initialized ready = Resolved /\
     socket ready = Some CONNECTING).
Proof. repeat split. Qed.

(** X19. A transport error closes the socket and drops it also after
    [initialize()] has completed: the completed call stays completed and the
    mirror is kept, but from then on nothing is sent any more (there is no
    reconnection).  While [initialize()] is pending the error rejects it. *)
Theorem socket_error_drops_connection st :
  let failed := onSocketError st in
  socket (fst failed) = None /\
  mirror (fst failed) = mirror st /\
  snd failed = match socket st with Some _ => [SocketClose] | None => [] end /\
  (forall m : ClientToServerMessage, sendToServer m (fst failed) = []) /\
  (forall event, send event (fst failed) = (fst failed, [])) /\
  (initialized st = Resolved -> initialized (fst failed) = Resolved) /\
  (initialized st = Pending ->
     exists reason, initialized (fst failed) = Rejected reason).
Proof.
  repeat split.
  - simpl. by intros ->.
  - simpl. intros ->. by eexists.
Qed.

Lemma dropLeadingSlashes_head (s rest : string) :
  dropLeadingSlashes s <> String "/" rest.
Proof.
  induction s as [|c s IH]; [done|]. simpl.
  destruct (isSlash c) eqn:Hc; [done|].
  intros [= -> _]. done.
Qed.

Lemma dropTrailingSlashes_head (s : string) :
  dropTrailingSlashes s = "" \/
  exists c rest rest', s = String c rest /\ dropTrailingSlashes s = String c rest'.
Proof.
  destruct s as [|c s]; [by left|]. simpl.
  destruct (dropTrailingSlashes s) as [|c' kept].
  - destruct (isSlash c); [by left|]. right. by eexists _, _, _.
  - right. by eexists _, _, _.
Qed.

Lemma dropTrailingSlashes_last (s front : string) :
  dropTrailingSlashes s <> front ++ "/".
Proof.
  revert front. induction s as [|c s IH]; intros front.
  - by destruct front.
  - simpl. destruct (dropTrailingSlashes s) as [|c' kept] eqn:Hs.
    + destruct (isSlash c) eqn:Hc; [by destruct front|].
      destruct front as [|f front]; simpl.
      * intros [= ->]. done.
      * intros [= _ Hnil]. by destruct front.
    + destruct front as [|f front]; simpl; [done|].
      intros [= _ Hkept]. by apply (IH front).
Qed.

(** Trimming changes nothing in a path that has no slash at either end. *)
Lemma dropLeadingSlashes_fixed (s : string) :
  (forall rest, s <> String "/" rest) -> dropLeadingSlashes s = s.
Proof.
  intros Hs. destruct s as [|c s]; [done|]. simpl.
  destruct (isSlash c) eqn:Hc; [|done].
  apply Ascii.eqb_eq in Hc. subst. by destruct (Hs s).
Qed.

Lemma dropTrailingSlashes_fixed (s : string) :
  (forall front, s <> front ++ "/") -> dropTrailingSlashes s = s.
Proof.
  induction s as [|c s IH]; intros Hs; [done|]. simpl.
  rewrite IH.
  - destruct s as [|c' s']; [|done].
    destruct (isSlash c) eqn:Hc; [|done].
    apply Ascii.eqb_eq in Hc. subst. by destruct (Hs "").
  - intros front ->. by apply (Hs (String c front)).
Qed.

Lemma dropTrailingSlashes_slash (s : string) :
  dropTrailingSlashes (s ++ "/") = dropTrailingSlashes s.
Proof.
  induction s as [|c s IH]; [done|].
  change (String c s ++ "/") with (String c (s ++ "/")).
  change (dropTrailingSlashes (String c (s ++ "/")))
    with (match dropTrailingSlashes (s ++ "/") with
          | EmptyString => if isSlash c then EmptyString else String c EmptyString
          | kept => String c kept
          end).
  by rewrite IH.
Qed.

Lemma dropLeadingSlashes_slash (s : string) :
  dropLeadingSlashes (s ++ "/") = dropLeadingSlashes s ++ "/" \/
  (dropLeadingSlashes (s ++ "/") = "" /\ dropLeadingSlashes s = "").
Proof.
  induction s as [|c s IH]; [by right|].
  change (String c s ++ "/") with (String c (s ++ "/")).
  cbn [dropLeadingSlashes].
  destruct (isSlash c); [done|by left].
Qed.

Lemma trimSlashes_leading (p : string) :
  trimSlashes (String "/" p) = trimSlashes p.
Proof. reflexivity. Qed.

Lemma trimSlashes_trailing (p : string) :
  trimSlashes (p ++ "/") = trimSlashes p.
Proof.
  unfold trimSlashes.
  destruct (dropLeadingSlashes_slash p) as [->|[-> ->]]; [|done].
  apply dropTrailingSlashes_slash.
Qed.

(** X20. The room name derived from the page address: ["default"] where
    there is no [window] and for the empty path; a slash at the start or at
    the end of the path does not count; and a path that is not empty and has
    no slash at either end is the room name as it is, slashes inside
    included.  So a path of slashes only gives ["default"], the room name is
    never empty and has no slash at its start or at its end, and deriving a
    room name from a room name gives it back. *)
Theorem getRoomFromUrl_room :
  getRoomFromUrl None = "default" /\
  getRoomFromUrl (Some "") = "default" /\
  (forall p, getRoomFromUrl (Some (String "/" p)) = getRoomFromUrl (Some p)) /\
  (forall p, getRoomFromUrl (Some (p ++ "/")) = getRoomFromUrl (Some p)) /\
  (forall p,
     p <> "" ->
     (forall rest, p <> String "/" rest) ->
     (forall front, p <> front ++ "/") ->
     getRoomFromUrl (Some p) = p) /\
  getRoomFromUrl (Some "/") = "default" /\
  getRoomFromUrl (Some "///") = "default" /\
  getRoomFromUrl (Some "/lobby/") = "lobby" /\
  getRoomFromUrl (Some "//games/chess//") = "games/chess" /\
  (forall pathname,
     getRoomFromUrl pathname <> "" /\
     (forall rest, getRoomFromUrl pathname <> String "/" rest) /\
     (forall front, getRoomFromUrl pathname <> front ++ "/") /\
     getRoomFromUrl (Some (getRoomFromUrl pathname))
       = getRoomFromUrl pathname).
Proof.
  assert (Hfixed : forall p,
            p <> "" ->
            (forall rest, p <> String "/" rest) ->
            (forall front, p <> front ++ "/") ->
            getRoomFromUrl (Some p) = p).
  { intros p Hne Hhead Hlast. simpl. unfold trimSlashes.
    rewrite dropLeadingSlashes_fixed by done.
    rewrite dropTrailingSlashes_fixed by done.
    apply String.eqb_neq in Hne. by rewrite Hne. }
  split; [done|]. split; [done|].
  split; [intros p; simpl; by rewrite trimSlashes_leading|].
  split; [intros p; simpl; by rewrite trimSlashes_trailing|].
  split; [exact Hfixed|].
  split; [done|]. split; [done|]. split; [done|]. split; [done|].
  intros pathname.
  assert (Hne : getRoomFromUrl pathname <> "").
  { destruct pathname as [p|]; [|done]. simpl.
    destruct (String.eqb (trimSlashes p) "") eqn:Hp; [done|].
    by apply String.eqb_neq in Hp. }
  assert (Hhead : forall rest, getRoomFromUrl pathname <> String "/" rest).
  { intros rest. destruct pathname as [p|]; [|done]. simpl.
    destruct (String.eqb (trimSlashes p) "") eqn:Hp; [done|].
    unfold trimSlashes.
    destruct (dropTrailingSlashes_head (dropLeadingSlashes p))
      as [->|(c & r & r' & Hs & ->)]; [done|].
    intros [= -> _]. by apply (dropLeadingSlashes_head p r). }
  assert (Hlast : forall front, getRoomFromUrl pathname <> front ++ "/").
  { intros front. destruct pathname as [p|].
    - simpl. destruct (String.eqb (trimSlashes p) "") eqn:Hp.
      + clear. revert front. do 7 (intros [|? front]; [done|]; simpl;
          intros [= _ H]; revert front H). by intros [|? ?].
      + apply dropTrailingSlashes_last.
    - simpl. clear. revert front. do 7 (intros [|? front]; [done|]; simpl;
        intros [= _ H]; revert front H). by intros [|? ?]. }
  split; [done|]. split; [done|]. split; [done|]. by apply Hfixed.
Qed.

End ReplicaConnection.

Section RelayEventPayload.

Import Relay.

(** X21. For an event that carries neither a [clientId] nor a [username]
    field, the payload the server sends is the event without its [echo]
    field, with the id of the sending connection as [clientId] and its
    registered username as [username]. *)
Theorem event_payload_of_plain_event event sender info :
  event !! "clientId" = None ->
  event !! "username" = None ->
  eventData event sender info
  = <["username" := VStr (username info)]>
      (<["clientId" := VStr sender]> (delete "echo" event)).
Proof.
  intros Hc Hu. apply map_eq. intros key.
  destruct (decide (key = "username")) as [->|Hku].
  { by rewrite eventData_username, Hu, lookup_insert_eq. }
  rewrite lookup_insert_ne by done.
  destruct (decide (key = "clientId")) as [->|Hkc].
  { by rewrite eventData_clientId, Hc, lookup_insert_eq. }
  rewrite lookup_insert_ne by done.
  destruct (decide (key = "echo")) as [->|Hke].
  { by rewrite eventData_echo, lookup_delete_eq. }
  rewrite lookup_delete_ne by done. by apply eventData_other.
Qed.

Lemma event_payload_of_plain_event_witness :
  eventData Samples.quietEvent "a" Samples.alice
  = <["username" := VStr "Alice"]>
      (<["clientId" := VStr "a"]> (delete "echo" Samples.quietEvent)).
Proof.
  apply (event_payload_of_plain_event Samples.quietEvent "a" Samples.alice);
    reflexivity.
Defined.

End RelayEventPayload.
